(** * Dorm-Meal-Tracker: the table pipeline of [scraping/extractPDF.go]

    A shallow embedding of the table aggregation, normalisation, filtering
    and serialisation code of [src/scraping/extractPDF.go], and the
    properties of it that the specification states; after them, the
    download of the menu files in [src/scraping/main.go] and further
    properties of both files.

    Conventions of the embedding:
    - a Go [string] is its sequence of bytes, [list ascii];
    - a Go [int] is a [Z]; every integer the code computes is a length, an
      index plus one or a page number, far inside the 64-bit range, so no
      wrap-around is reachable and none is written out;
    - a Go [map] is a handle into a store of maps ([heap]); the nil map is
      the handle [None];
    - a slice is the list of its elements: the code writes to the elements
      of a slice only while it builds the table ([asStringTable],
      [normalizeTable]), never to one it has stored in a map or read from
      one, so sharing between slices is not observable;
    - a call either returns a value, returns a non-nil [error], or panics
      ([result]); stateful code threads the store through ([Go]);
    - [make] of a slice panics for a length the run time does not allocate;
      which lengths it allocates is a parameter ([Runtime]). *)

From Stdlib Require Import ZArith Ascii String List Lia.
From stdpp Require Import base option list gmap fin_maps sorting pretty strings.

Local Open Scope Z_scope.

(** ** Strings *)

Abbreviation gostring := (list ascii).

(** A literal of the source, as bytes. *)
Definition str (s : string) : gostring := list_ascii_of_string s.

(** [len(x)] *)
Definition len {A : Type} (l : list A) : Z := Z.of_nat (length l).

(** [%d] of [fmt]: decimal, with a minus sign for negative numbers. *)
Definition fmtInt (n : Z) : gostring := str (pretty n).

(** ** Results of calls and the state monad of the embedding *)

(** An [error] value: one a library call produced, or one built by
    [fmt.Errorf] from a format and, with [%w], the error it wraps. *)
Inductive error : Type :=
  | LibError (msg : gostring)
  | Errorf (format : string)
  | ErrorfW (format : string) (cause : error).

Inductive result (A : Type) : Type :=
  | Ok (a : A)       (* the call returns normally *)
  | Err (e : error)  (* the call returns a non-nil error *)
  | Panic.           (* a run-time panic: the call does not return *)
Arguments Ok {A} a.
Arguments Err {A} e.
Arguments Panic {A}.

Definition Go (S A : Type) : Type := S → S * result A.

Global Instance Go_ret (S : Type) : MRet (Go S) := λ A a σ, (σ, Ok a).
Global Instance Go_bind (S : Type) : MBind (Go S) := λ A B f m σ,
  match m σ with
  | (σ', Ok a) => f a σ'
  | (σ', Err e) => (σ', Err e)
  | (σ', Panic) => (σ', Panic)
  end.

Global Instance result_ret : MRet result := λ A a, Ok a.
Global Instance result_bind : MBind result := λ A B f r,
  match r with
  | Ok a => f a
  | Err e => Err e
  | Panic => Panic
  end.

(** [fmt.Errorf(format, ..., err)] on the error path of a call. *)
Definition wrapErr {A : Type} (format : string) (r : result A) : result A :=
  match r with
  | Err e => Err (ErrorfW format e)
  | _ => r
  end.

(** [s[i]]: indexing panics outside [0 <= i < len(s)]. *)
Definition index {A : Type} (s : list A) (i : Z) : result A :=
  if (i <? 0) || (i >=? len s) then Panic
  else match s !! Z.to_nat i with
       | Some x => Ok x
       | None => Panic
       end.

(** A computation that does not touch the state. *)
Definition lift {S A : Type} (r : result A) : Go S A := λ σ, (σ, r).
(** Reading the state. *)
Definition gets {S A : Type} (f : S → A) : Go S A := λ σ, (σ, Ok (f σ)).

(** Unfolding one step of a computation in [Go]. *)
Ltac go_unfold := unfold mbind, Go_bind, lift.
Ltac go_unfold_in H := unfold mbind, Go_bind, lift in H.

(** ** Data model *)

(** [type stringTable [][]string] *)
Abbreviation stringTable := (list (list gostring)).

(** The contents of a [map[int][]stringTable]. *)
Abbreviation pageMap := (gmap Z (list stringTable)).

(** The store of maps: [make] allocates in it, [m[k] = v] updates it. *)
Abbreviation loc := positive.
Abbreviation heap := (gmap loc pageMap).

(** [type docTables struct { pageTables map[int][]stringTable }].  The field
    holds a reference: copying a [docTables] value copies the handle. *)
Record docTables : Type := DocTables { pageTables : option loc }.

(** The contents behind a handle; the nil map reads as the empty map. *)
Definition readMap (σ : heap) (r : docTables) : pageMap :=
  match pageTables r with
  | Some l => default ∅ (σ !! l)
  | None => ∅
  end.

(** The handle points into the store (always so in Go; the nil map counts). *)
Definition valid (σ : heap) (r : docTables) : Prop :=
  match pageTables r with
  | Some l => is_Some (σ !! l)
  | None => True
  end.

(** [make(map[int][]stringTable)] *)
Definition makeMap : Go heap loc := λ σ,
  let l := fresh (dom σ) in (<[l := ∅]> σ, Ok l).

(** [m[k] = v]; assignment to an entry of the nil map panics. *)
Definition mapAssign (m : option loc) (k : Z) (v : list stringTable) : Go heap unit := λ σ,
  match m with
  | Some l =>
      match σ !! l with
      | Some M => (<[l := <[k := v]> M]> σ, Ok tt)
      | None => (σ, Panic)
      end
  | None => (σ, Panic)
  end.

(** [for k, v := range m]: the entries of the map, in the order the run-time
    happens to choose.  The embedding takes the order of [map_to_list]; the
    loops below are shown not to depend on it. *)
Definition rangeMap (r : docTables) : Go heap (list (Z * list stringTable)) :=
  gets (λ σ, map_to_list (readMap σ r)).

(** ** [wh] *)

(** [func (t stringTable) wh() (int, int)] *)
Definition wh (t : stringTable) : Z * Z :=
  match t with
  | [] => (0, 0)
  | row0 :: _ => (len row0, len t)
  end.

(** ** [filter] *)

(** The inner loop of [filter]: [filteredTables] grows by [append].
    [table[0]] is evaluated for every table, before anything else. *)
Fixpoint filterTables (width height : Z) (filteredTables tables : list stringTable)
    : result (list stringTable) :=
  match tables with
  | [] => Ok filteredTables
  | table :: rest =>
      match table with
      | [] => Panic   (* table[0]: index out of range [0] with length 0 *)
      | row0 :: _ =>
          if (len row0 >=? width) && (len table >=? height)
          then filterTables width height (filteredTables ++ [table]) rest
          else filterTables width height filteredTables rest
      end
  end.

(** The outer loop of [filter], over the entries of the receiver's map. *)
Fixpoint filterPages (width height : Z) (filtered : docTables)
    (entries : list (Z * list stringTable)) : Go heap unit :=
  match entries with
  | [] => mret tt
  | (pageNum, tables) :: rest =>
      filteredTables ← lift (filterTables width height [] tables);
      (if len filteredTables >? 0
       then mapAssign (pageTables filtered) pageNum filteredTables
       else mret tt) ;;
      filterPages width height filtered rest
  end.

(** [func (r docTables) filter(width, height int) docTables] *)
Definition filter (r : docTables) (width height : Z) : Go heap docTables :=
  m ← makeMap;
  let filtered := DocTables (Some m) in
  entries ← rangeMap r;
  filterPages width height filtered entries ;;
  mret filtered.

(** The table passes the size test of the specification: its width and
    height, as [wh] reports them, reach the thresholds. *)
Definition passes (width height : Z) (t : stringTable) : bool :=
  ((wh t).1 >=? width) && ((wh t).2 >=? height).

(** What [filter] leaves of one page: the passing tables, or no entry. *)
Definition keptTables (width height : Z) (tables : list stringTable)
    : option (list stringTable) :=
  let kept := List.filter (passes width height) tables in
  if decide (kept = []) then None else Some kept.

(** No table of the set has zero rows. *)
Definition noEmptyTable (M : pageMap) : Prop :=
  ∀ pageNum tables, M !! pageNum = Some tables → Forall (λ t, t ≠ []) tables.

(** One step of the outer loop on the contents of the new map. *)
Definition storeKept (width height : Z) (M : pageMap) (e : Z * list stringTable) : pageMap :=
  match keptTables width height e.2 with
  | Some kept => <[e.1 := kept]> M
  | None => M
  end.


(** ** [pageNumbers], [numTables] *)

(** [func (r *docTables) pageNumbers() []int]: the keys, then [sort.Ints]. *)
Definition pageNumbers (σ : heap) (r : docTables) : list Z :=
  merge_sort Z.le (map_to_list (readMap σ r)).*1.

(** [func (r *docTables) numTables() int] *)
Definition numTables (σ : heap) (r : docTables) : Z :=
  foldl (λ n e, n + len e.2) 0 (map_to_list (readMap σ r)).

(** ** [describe] *)

Definition nl : gostring := ["010"%char].

(** [strings.Join] *)
Fixpoint Join (elems : list gostring) (sep : gostring) : gostring :=
  match elems with
  | [] => []
  | [e] => e
  | e :: rest => e ++ sep ++ Join rest sep
  end.

Section describe.
(** [%q] of [fmt], that is [strconv.Quote]; a library function the
    embedding takes as given. *)
Variable Quote : gostring → gostring.

(** The innermost loop: a cell is quoted when it is not empty. *)
Definition describeCell (cell : gostring) : gostring :=
  if len cell >? 0 then Quote cell else [].

Definition describeRow (row : list gostring) : gostring :=
  str "        [" ++ Join (describeCell <$> row) (str ", ") ++ str "]" ++ nl.

Definition describeTable (level : Z) (i : nat) (table : stringTable) : gostring :=
  let '(w, h) := wh table in
  str "      table " ++ fmtInt (Z.of_nat i + 1) ++ str ": "
    ++ fmtInt w ++ str " x " ++ fmtInt h ++ nl
    ++ (if (level <=? 3) || (len table =? 0) then []
        else concat (describeRow <$> table)).

Definition describePage (level : Z) (pageNum : Z) (tables : list stringTable) : gostring :=
  if len tables =? 0 then []
  else
    str "   page " ++ fmtInt pageNum ++ str ": " ++ fmtInt (len tables) ++ str " tables" ++ nl
      ++ (if level <=? 2 then [] else concat (imap (describeTable level) tables)).

(** [func (r *docTables) describe(level int) string] *)
Definition describe (σ : heap) (r : docTables) (level : Z) : gostring :=
  if (level =? 0) || (numTables σ r =? 0) then nl
  else
    fmtInt (len (pageNumbers σ r)) ++ str " pages "
      ++ fmtInt (numTables σ r) ++ str " tables" ++ nl
      ++ (if level <=? 1 then []
          else concat ((λ pageNum,
                  describePage level pageNum (default [] (readMap σ r !! pageNum)))
                <$> pageNumbers σ r)).

End describe.

(** ** The scenario of the specification

    A document of three pages; page 2 holds a table 4 cells wide and 3 high
    and a table of one cell, pages 1 and 3 hold none. *)

Definition table43 : stringTable := replicate 3 (replicate 4 (str "x")).
Definition table11 : stringTable := [[str "y"]].
Definition scenarioMap : pageMap :=
  <[1 := []]> (<[2 := [table43; table11]]> (<[3 := []]> ∅)).
Definition scenarioHeap : heap := <[1%positive := scenarioMap]> ∅.
Definition scenarioDoc : docTables := DocTables (Some 1%positive).

(** A set holding one table of zero rows (a [TextTable] of height 0). *)
Definition zeroRowHeap : heap := <[1%positive := <[1 := [[]]]> ∅]> ∅.

(** A one-page document on which the extractor found no table. *)
Definition noTableHeap : heap := <[1%positive := <[1 := []]> ∅]> ∅.

(** ** [encoding/csv]: the writer

    Modelled from the spec: the writer is library code, not in the
    repository.  [csv.NewWriter(b)] with its defaults, [Comma = ','] and
    [UseCRLF = false], writes by the rule set of the specification (fields
    with the delimiter, a quote or a line break are quoted, quotes doubled,
    one record per row, a newline after each); the definitions follow
    [Writer.Write] and [Writer.fieldNeedsQuotes] of the Go distribution,
    which also quote the field [\.] and a field that starts with a space. *)

Definition comma : ascii := ","%char.
Definition dquote : ascii := "034"%char.
Definition LF : ascii := "010"%char.
Definition CR : ascii := "013"%char.

(** The bytes that force quoting: the delimiter, the quote, CR and LF. *)
Definition csvSpecial (c : ascii) : bool :=
  bool_decide (c = comma) || bool_decide (c = dquote)
  || bool_decide (c = CR) || bool_decide (c = LF).

(** [unicode.IsSpace] of the first rune of a string, read off its UTF-8
    bytes: the ASCII space characters, U+0085, U+00A0, U+1680,
    U+2000..U+200A, U+2028, U+2029, U+202F, U+205F and U+3000. *)
Definition firstRuneIsSpace (field : gostring) : bool :=
  match nat_of_ascii <$> field with
  | b0 :: rest =>
      if (b0 <? 128)%nat then
        bool_decide (b0 ∈ [9; 10; 11; 12; 13; 32]%nat)
      else
        match b0, rest with
        | 194, b1 :: _ => bool_decide (b1 ∈ [133; 160]%nat)
        | 225, 154 :: 128 :: _ => true
        | 226, 128 :: b2 :: _ =>
            ((128 <=? b2) && (b2 <=? 138))%nat || bool_decide (b2 ∈ [168; 169; 175]%nat)
        | 226, 129 :: 159 :: _ => true
        | 227, 128 :: 128 :: _ => true
        | _, _ => false
        end%nat
  | [] => false
  end.

(** [func (w *Writer) fieldNeedsQuotes(field string) bool] *)
Definition fieldNeedsQuotes (field : gostring) : bool :=
  match field with
  | [] => false
  | _ =>
      if decide (field = str "\.") then true
      else if existsb csvSpecial field then true
      else firstRuneIsSpace field
  end.

(** The body of a quoted field: every quote is doubled, every other byte
    (CR and LF included) is copied. *)
Fixpoint escapeQuotes (field : gostring) : gostring :=
  match field with
  | [] => []
  | c :: rest =>
      if decide (c = dquote) then dquote :: dquote :: escapeQuotes rest
      else c :: escapeQuotes rest
  end.

Definition writeField (field : gostring) : gostring :=
  if fieldNeedsQuotes field then dquote :: escapeQuotes field ++ [dquote]
  else field.

(** The fields of a record, a comma before each but the first. *)
Fixpoint writeFields (n : nat) (record : list gostring) : gostring :=
  match record with
  | [] => []
  | field :: rest =>
      (if decide (n = 0%nat) then [] else [comma]) ++ writeField field
        ++ writeFields (S n) rest
  end.

(** [func (w *Writer) Write(record []string) error]: the bytes it appends. *)
Definition writeRecord (record : list gostring) : gostring :=
  writeFields 0 record ++ [LF].

(** ** [csv] *)

(** The loop of [csv]: a row whose length is not [w] panics, before it is
    written. *)
Fixpoint csvRows (w : Z) (rows : list (list gostring)) (b : gostring) : result gostring :=
  match rows with
  | [] => Ok b
  | row :: rest =>
      if bool_decide (len row ≠ w) then Panic
      else csvRows w rest (b ++ writeRecord row)
  end.

(** [func (t stringTable) csv() string] *)
Definition csv (t : stringTable) : result gostring :=
  let '(w, h) := wh t in csvRows w t [].

(** ** [saveCSVFiles] *)

(** The file system, as far as [saveCSVFiles] touches it: the files written
    so far, oldest first, and the paths at which a write fails. *)
Record fsys : Type := Fsys {
  written : list (gostring * gostring);
  denied : gset gostring
}.

(** [ioutil.WriteFile(path, contents, 0666)] *)
Definition WriteFile (path contents : gostring) : Go fsys unit := λ fs,
  if decide (path ∈ denied fs) then (fs, Err (LibError (str "permission denied")))
  else (Fsys (written fs ++ [(path, contents)]) (denied fs), Ok tt).

(** [fmt.Sprintf("%s.page%d.table%d.csv", csvRoot, pageNum, i+1)] *)
Definition csvPath (csvRoot : gostring) (pageNum : Z) (i : nat) : gostring :=
  csvRoot ++ str ".page" ++ fmtInt pageNum ++ str ".table" ++ fmtInt (Z.of_nat i + 1)
    ++ str ".csv".

(** The inner loop of [saveCSVFiles], from table index [i] on. *)
Fixpoint saveTables (csvRoot : gostring) (pageNum : Z) (i : nat)
    (tables : list stringTable) : Go fsys unit :=
  match tables with
  | [] => mret tt
  | table :: rest =>
      contents ← lift (csv table);
      (λ fs, let '(fs', res) := WriteFile (csvPath csvRoot pageNum i) contents fs in
             (fs', wrapErr "failed to write csvPath=%q err=%w" res)) ;;
      saveTables csvRoot pageNum (S i) rest
  end.

(** The outer loop of [saveCSVFiles], over the sorted page numbers. *)
Fixpoint savePages (M : pageMap) (csvRoot : gostring) (pageNums : list Z) : Go fsys unit :=
  match pageNums with
  | [] => mret tt
  | pageNum :: rest =>
      saveTables csvRoot pageNum 0 (default [] (M !! pageNum)) ;;
      savePages M csvRoot rest
  end.

(** [func (r docTables) saveCSVFiles(csvRoot string) error] *)
Definition saveCSVFiles (σ : heap) (r : docTables) (csvRoot : gostring) : Go fsys unit :=
  savePages (readMap σ r) csvRoot (pageNumbers σ r).

(** Every row of the table has the length of row 0. *)
Definition rectangular (t : stringTable) : Prop :=
  Forall (λ row, len row = (wh t).1) t.

(** The scenario of the specification: width 3, second row of length 2. *)
Definition raggedTable : stringTable :=
  [[str "a"; str "b"; str "c"]; [str "d"; str "e"]].

(** The files [saveCSVFiles] is to write, in order: for each page number of
    [pageNums] in turn, the tables of the page by index, each under the
    path of its page and index. *)
Definition plannedFiles (M : pageMap) (csvRoot : gostring) (pageNums : list Z)
    : list (gostring * stringTable) :=
  pageNum ← pageNums;
  imap (λ i table, (csvPath csvRoot pageNum i, table)) (default [] (M !! pageNum)).

(** Writing a list of planned files, one after the other. *)
Fixpoint saveAll (plan : list (gostring * stringTable)) : Go fsys unit :=
  match plan with
  | [] => mret tt
  | (path, table) :: rest =>
      contents ← lift (csv table);
      (λ fs, let '(fs', res) := WriteFile path contents fs in
             (fs', wrapErr "failed to write csvPath=%q err=%w" res)) ;;
      saveAll rest
  end.

(** A written file is the planned one: its path, and the [csv] of its table. *)
Definition writes (w : gostring * gostring) (pt : gostring * stringTable) : Prop :=
  w.1 = pt.1 ∧ csv pt.2 = Ok w.2.

Definition emptyDisk : fsys := Fsys [] ∅.

(** ** [extractDirectory] and its use by the driver *)

(** [strings.Split(s, sep)] for a separator of one byte: the pieces between
    the separators, one more than there are separators. *)
Fixpoint Split (s : gostring) (sep : ascii) : list gostring :=
  match s with
  | [] => [[]]
  | c :: rest =>
      if decide (c = sep) then [] :: Split rest sep
      else match Split rest sep with
           | part :: parts => (c :: part) :: parts
           | [] => [[c]]
           end
  end.

(** [func extractDirectory(filepath string, depth int) (string, error)] *)
Definition extractDirectory (filepath : gostring) (depth : Z) : result gostring :=
  let parts := Split filepath "/"%char in
  if len parts =? 0 then Err (Errorf "cannot get directory")
  else if depth =? -1 then
    fileName ← index parts (len parts - 1);
    index (Split fileName "."%char) 0
  else
    part ← index parts depth;
    index (Split part "."%char) 0.

(** The lines of [extractPDF] that derive the output directory of one input
    path.  The first [err] is overwritten by the second call; [log.Fatalf]
    ends the run, which the embedding records as the error. *)
Definition csvSubDirOf (CSVDir inPath : gostring) : result gostring :=
  match extractDirectory inPath 1 with
  | Panic => Panic
  | year =>
      let csvYearDirName := match year with Ok s => s | _ => [] end in
      match extractDirectory inPath (-1) with
      | Panic => Panic
      | Err e => Err (ErrorfW "Failed to extract directory: %v" e)
      | Ok csvMonthDirName =>
          Ok (CSVDir ++ str "/" ++ csvYearDirName ++ str "/" ++ csvMonthDirName)
      end
  end.

(** ** [normalize], [reduceSpaces] *)

Definition SP : ascii := " "%char.
Definition TAB : ascii := "009"%char.
Definition VT : ascii := "011"%char.
Definition FF : ascii := "012"%char.

(** The class [\s] of Go's [regexp] (RE2 syntax): [[\t\n\f\r ]].  It has no
    vertical tab and nothing outside ASCII. *)
Definition isSpace (c : ascii) : bool :=
  bool_decide (c ∈ [TAB; LF; FF; CR; SP]).

(** [reSpace.ReplaceAllString(text, " ")] for [reSpace = (?m)\s+]: one space
    for every maximal run of [\s] bytes.  [inRun] says that the byte before
    belongs to the run being replaced.  The class is ASCII, so matching on
    bytes and matching on runes agree. *)
Fixpoint replaceRuns (inRun : bool) (text : gostring) : gostring :=
  match text with
  | [] => []
  | c :: rest =>
      if isSpace c then
        if inRun then replaceRuns true rest else SP :: replaceRuns true rest
      else c :: replaceRuns false rest
  end.

(** The cutset of [strings.Trim(text, " \t\n\r\v")]. *)
Definition inCutset (c : ascii) : bool :=
  bool_decide (c ∈ [SP; TAB; LF; CR; VT]).

Fixpoint TrimLeft (s : gostring) : gostring :=
  match s with
  | [] => []
  | c :: rest => if inCutset c then TrimLeft rest else s
  end.

Definition TrimRight (s : gostring) : gostring := reverse (TrimLeft (reverse s)).

(** [strings.Trim] with the cutset above. *)
Definition Trim (s : gostring) : gostring := TrimRight (TrimLeft s).

(** [func reduceSpaces(text string) string] *)
Definition reduceSpaces (text : gostring) : gostring :=
  Trim (replaceRuns false text).

Section normalize.
(** [norm.NFKC.String] of [golang.org/x/text/unicode/norm], a library
    function the embedding takes as given. *)
Variable NFKC : gostring → gostring.

(** [func normalize(text string) string] *)
Definition normalize (text : gostring) : gostring := reduceSpaces (NFKC text).

(** [func normalizeTable(cells stringTable) stringTable] *)
Definition normalizeTable (cells : stringTable) : stringTable :=
  (λ row : list gostring, normalize <$> row) <$> cells.

End normalize.

(** The white space of the specification among the ASCII characters: space,
    tab, newline, carriage return, vertical tab, and form feed. *)
Definition isWhite (c : ascii) : bool :=
  bool_decide (c ∈ [SP; TAB; LF; CR; VT; FF]).

(** Two neighbouring characters of the text are both white space. *)
Fixpoint hasWhitePair (s : gostring) : bool :=
  match s with
  | c :: (c' :: _) as rest => (isWhite c && isWhite c') || hasWhitePair rest
  | _ => false
  end.

(** The text [a], two vertical tabs, [b]. *)
Definition twoVT : gostring := ["a"%char; VT; VT; "b"%char].

(** ** Extraction: [asStringTable], [extractPageTables], [extractTables] *)

(** [extractor.TextTable], as far as the code reads it: the declared width
    and height and, for every cell, its [Text]. *)
Record TextTable : Type := { W : Z; H : Z; Cells : list (list gostring) }.

(** What the run time allocates.  [make([]T, n)] panics with [makeslice:
    len out of range] for a length it does not allocate; which lengths
    those are depends on the platform and on the size of [T], and is a
    parameter of the embedding: [allocates size n] tells whether a slice of
    [n >= 0] elements of [size] machine words each is allocated. *)
Class Runtime : Type := { allocates : Z → Z → bool }.

(** [make([]T, n)] for a [T] of [size] words: [n] zero values; a negative
    length panics, and so does a length that is not allocated. *)
Definition make {RT : Runtime} {A : Type} (size : Z) (zero : A) (n : Z)
    : result (list A) :=
  if (n <? 0) || negb (allocates size n) then Panic
  else Ok (replicate (Z.to_nat n) zero).

(** The run time of linux/amd64: a word has 8 bytes, and [makeslice]
    refuses a slice of more than [maxAlloc = 1 << 48] bytes. *)
Definition amd64 : Runtime := {| allocates := λ size n, size * 8 * n <=? 2 ^ 48 |}.

(** [s[i] = x]: out of range panics (stdpp's insert would do nothing). *)
Definition assign {A : Type} (s : list A) (i : nat) (x : A) : result (list A) :=
  if decide (i < length s)%nat then Ok (<[i := x]> s) else Panic.

(** [for x, cell := range row { cells[y][x] = cell.Text }] *)
Fixpoint fillRow (out : list gostring) (x : nat) (row : list gostring)
    : result (list gostring) :=
  match row with
  | [] => Ok out
  | cell :: rest => out' ← assign out x cell; fillRow out' (S x) rest
  end.

(** [for y, row := range table.Cells { cells[y] = make([]string, table.W); ... }];
    a [string] is two words. *)
Fixpoint fillRows {RT : Runtime} (w : Z) (cells : stringTable) (y : nat)
    (rows : list (list gostring)) : result stringTable :=
  match rows with
  | [] => Ok cells
  | row :: rest =>
      fresh_row ← make 2 [] w;
      _ ← assign cells y fresh_row;
      filled ← fillRow fresh_row 0 row;
      cells' ← assign cells y filled;
      fillRows w cells' (S y) rest
  end.

(** [func asStringTable(table extractor.TextTable) stringTable]; the rows
    are slices, of three words each. *)
Definition asStringTable {RT : Runtime} (NFKC : gostring → gostring) (table : TextTable)
    : result stringTable :=
  cells ← make 3 [] (H table);
  cells ← fillRows (W table) cells 0 (Cells table);
  mret (normalizeTable NFKC cells).

(** An opened document, as far as the code uses [model.PdfReader]: the
    number of pages, and for a page number the tables the layout extractor
    finds on the page ([GetPage], [NormalizePage], [extractor.New],
    [ExtractPageText] and [Tables] in one), or the error of these calls. *)
Record PdfReader : Type := {
  GetNumPages : result Z;
  pageTextTables : Z → result (list TextTable)
}.

Section extraction.
Context {RT : Runtime}.
Variable NFKC : gostring → gostring.
(** [os.Open] and [model.NewPdfReaderLazy], library calls taken as given. *)
Variable File : Type.
Variable Open : gostring → result File.
Variable NewPdfReaderLazy : File → result PdfReader.

(** [func extractPageTables(pdfReader *model.PdfReader, pageNum int) ([]stringTable, error)] *)
Definition extractPageTables (pdfReader : PdfReader) (pageNum : Z)
    : result (list stringTable) :=
  tables ← pageTextTables pdfReader pageNum;
  mapM (asStringTable NFKC) tables.

(** The loop of [extractTables]: the page's list is stored as it comes. *)
Fixpoint extractPages (pdfReader : PdfReader) (result : docTables) (pageNums : list Z)
    : Go heap unit :=
  match pageNums with
  | [] => mret tt
  | pageNum :: rest =>
      tables ← lift (wrapErr "extractPageTables failed. inPath=%q pageNum=%d err=%w"
                       (extractPageTables pdfReader pageNum));
      mapAssign (pageTables result) pageNum tables ;;
      extractPages pdfReader result rest
  end.

(** The page range after clamping. *)
Definition clampFirst (firstPage : Z) : Z := if firstPage <? 1 then 1 else firstPage.
Definition clampLast (lastPage numPages : Z) : Z :=
  if lastPage >? numPages then numPages else lastPage.

(** [func extractTables(inPath string, firstPage, lastPage int) (docTables, error)] *)
Definition extractTables (inPath : gostring) (firstPage lastPage : Z) : Go heap docTables :=
  f ← lift (wrapErr "Could not open %q err=%w" (Open inPath));
  pdfReader ← lift (wrapErr "NewPdfReaderLazy failed. %q err=%w" (NewPdfReaderLazy f));
  numPages ← lift (wrapErr "GetNumPages failed. %q err=%w" (GetNumPages pdfReader));
  let firstPage := clampFirst firstPage in
  let lastPage := clampLast lastPage numPages in
  m ← makeMap;
  let result := DocTables (Some m) in
  extractPages pdfReader result (seqZ firstPage (lastPage - firstPage + 1)) ;;
  mret result.

End extraction.

(** A document of one page on which the extractor finds no table. *)
Definition blankPdf : PdfReader :=
  {| GetNumPages := Ok 1; pageTextTables := λ _, Ok [] |}.

(** ** A reader for the text [csv] renders

    Modelled from the spec: the repository holds no CSV reader.  The reader
    follows the rule set the specification gives for [toDelimitedText]
    (the grammar of RFC 4180 in the dialect of the writer above): fields
    separated by commas, records ended by LF, a field in quotes holds any
    byte, a quote as two quotes; every line is a record. *)

Inductive readerState : Type :=
  | RecordStart     (* before the first byte of a record *)
  | FieldStart      (* after a comma *)
  | Unquoted        (* inside a field without quotes *)
  | Quoted          (* inside a quoted field *)
  | QuoteInQuoted.  (* after a quote inside a quoted field *)

(** [field] is the field read so far, [record] the fields before it,
    [records] the records before them. *)
Fixpoint readCSV (st : readerState) (field : gostring) (record : list gostring)
    (records : stringTable) (input : gostring) : option stringTable :=
  match input with
  | [] =>
      match st with
      | RecordStart => Some records
      | FieldStart => Some (records ++ [record ++ [[]]])
      | Unquoted | QuoteInQuoted => Some (records ++ [record ++ [field]])
      | Quoted => None
      end
  | c :: rest =>
      match st with
      | RecordStart | FieldStart =>
          if decide (c = dquote) then readCSV Quoted [] record records rest
          else if decide (c = comma) then readCSV FieldStart [] (record ++ [[]]) records rest
          else if decide (c = LF) then readCSV RecordStart [] [] (records ++ [record ++ [[]]]) rest
          else readCSV Unquoted [c] record records rest
      | Unquoted =>
          if decide (c = dquote) then None
          else if decide (c = comma) then readCSV FieldStart [] (record ++ [field]) records rest
          else if decide (c = LF) then readCSV RecordStart [] [] (records ++ [record ++ [field]]) rest
          else readCSV Unquoted (field ++ [c]) record records rest
      | Quoted =>
          if decide (c = dquote) then readCSV QuoteInQuoted field record records rest
          else readCSV Quoted (field ++ [c]) record records rest
      | QuoteInQuoted =>
          if decide (c = dquote) then readCSV Quoted (field ++ [dquote]) record records rest
          else if decide (c = comma) then readCSV FieldStart [] (record ++ [field]) records rest
          else if decide (c = LF) then readCSV RecordStart [] [] (records ++ [record ++ [field]]) rest
          else None
      end
  end.

Definition parseCSV (input : gostring) : option stringTable :=
  readCSV RecordStart [] [] [] input.

(** The two states in which the reader stands before a field; in them it
    does not look at what it holds of the field before. *)
Definition atStart (st : readerState) : Prop := st = RecordStart ∨ st = FieldStart.

(** No cell of the table holds a null byte. *)
Definition noNull (t : stringTable) : Prop :=
  Forall (Forall (λ cell : gostring, "000"%char ∉ cell)) t.

(** Every row of the table has a cell. *)
Definition hasColumns (t : stringTable) : Prop := Forall (λ row, row ≠ []) t.

(** A table with cells that need quoting: a comma, quotes, an empty cell,
    a leading space with CR LF, and a null byte. *)
Definition trickyTable : stringTable :=
  [[str "a,b"; [dquote; "h"%char; dquote]; str "plain"];
   [[]; [SP; "x"%char; CR; LF]; ["000"%char]]].

(** Every byte of the class [\s] in the text is a space, and the byte
    after it is not of the class. *)
Fixpoint collapsed (s : gostring) : bool :=
  match s with
  | [] => true
  | c :: rest =>
      (if isSpace c
       then bool_decide (c = SP)
            && match rest with
               | c' :: _ => negb (isSpace c')
               | [] => true
               end
       else true)
      && collapsed rest
  end.

(** The text neither starts nor ends with a byte for which [P] holds. *)
Definition trimmed (P : ascii → bool) (s : gostring) : Prop :=
  (∀ c, head s = Some c → P c = false) ∧ (∀ c, last s = Some c → P c = false).

(** What the proofs use of [norm.NFKC.String]: it returns a fixed point
    of itself; the empty text is in normal form; and a text around an ASCII
    white-space character (a starter that takes part in no composition) is
    in normal form exactly when the parts before and after it are. *)
Record NFKCLaws (NFKC : gostring → gostring) : Prop := {
  NFKC_idem : ∀ s, NFKC (NFKC s) = NFKC s;
  NFKC_nil : NFKC [] = [];
  NFKC_white : ∀ u c v, isWhite c = true →
    (NFKC (u ++ c :: v) = u ++ c :: v ↔ NFKC u = u ∧ NFKC v = v)
}.

(** ** Further definitions: sums over a set *)

(** The number of tables of the contents of a set, the sum [numTables]
    computes. *)
Definition sumTables (M : pageMap) : Z :=
  foldl (λ n e, n + len e.2) 0 (map_to_list M).

(** ** Further definitions: the grid of a [TextTable] *)

(** A row of the grid, filled up with empty cells to the width [w]. *)
Definition padRow (w : Z) (row : list gostring) : list gostring :=
  row ++ replicate (Z.to_nat w - length row) [].

(** The grid fits the declared size: the height is not negative, there
    are no more rows than the height and no row is longer than the width. *)
Definition gridFits (table : TextTable) : Prop :=
  0 ≤ H table ∧ len (Cells table) ≤ H table
  ∧ Forall (λ row, len row ≤ W table) (Cells table).

(** The run time allocates the slices of the table: the [H] rows and,
    where the grid has a row, the [W] cells of a row. *)
Definition slicesAllocate {RT : Runtime} (table : TextTable) : Prop :=
  allocates 3 (H table) = true
  ∧ (Cells table ≠ [] → allocates 2 (W table) = true).

(** A document of two pages; the layout extractor fails on page 2. *)
Definition brokenPdf : PdfReader :=
  {| GetNumPages := Ok 2;
     pageTextTables := λ p, if p =? 2 then Err (LibError (str "bad page")) else Ok [] |}.

(** ** [main.go]: [getDirecotry] *)

(** [func getDirecotry(filePath string) (string, error)] *)
Definition getDirecotry (filePath : gostring) : result gostring :=
  let parts := Split filePath "/"%char in
  if len parts =? 0 then Err (Errorf "cannot get directory")
  else index parts 0.

(** ** Further definitions: counting lines *)

(** The number of newline bytes of a text. *)
Definition lines (s : gostring) : nat :=
  length (List.filter (λ c, bool_decide (c = LF)) s).

(** The number of pages of the contents that hold a table. *)
Definition pagesWithTables (M : pageMap) : nat :=
  length (List.filter (λ e : Z * list stringTable, bool_decide (e.2 ≠ [])) (map_to_list M)).

(** ** [main.go]: the download of the menu files *)

(** [strings.HasPrefix(s, prefix)] *)
Fixpoint HasPrefix (s prefix : gostring) : bool :=
  match prefix, s with
  | [], _ => true
  | _ :: _, [] => false
  | c :: prefix', d :: s' => bool_decide (c = d) && HasPrefix s' prefix'
  end.

(** [strings.Contains(s, substr)] *)
Fixpoint Contains (s substr : gostring) : bool :=
  HasPrefix s substr ||
  match s with
  | [] => false
  | _ :: rest => Contains rest substr
  end.

(** [func makeFullPath(url string, path string) (string, bool)] *)
Definition makeFullPath (url path : gostring) : gostring * bool :=
  if Contains path (str "://") then ([], true) else (url ++ path, false).

(** The operating system, the network and the HTML parser, as far as
    [main.go] calls them, on a state [W] of the disk and the network.  The
    embedding takes these library functions as given.  A call that returns
    an [error] is a computation in [Go W]; [ioutil.ReadFile] returns both
    bytes and an error, and [main] looks at both. *)
Class System (W : Type) : Type := {
  (** [time.Now().Month().String()] *)
  time_Month : W → gostring;
  (** [ioutil.ReadFile(filename)] *)
  ioutil_ReadFile : gostring → W → W * (gostring * option error);
  (** [os.Stat(name)]; the code drops the [FileInfo] *)
  os_Stat : gostring → Go W unit;
  (** [os.IsNotExist(err)] of a non-nil error; it is false of nil *)
  os_IsNotExist : error → bool;
  (** [*http.Response], [http.Get(url)], [resp.Body.Close()] *)
  http_Response : Type;
  http_Get : gostring → Go W http_Response;
  Body_Close : http_Response → W → W;
  (** [*os.File], [os.Create(name)], [out.Close()] *)
  os_File : Type;
  os_Create : gostring → Go W os_File;
  File_Close : os_File → W → W;
  (** [io.Copy(out, resp.Body)]; the code drops the number of bytes *)
  io_Copy : os_File → http_Response → Go W unit;
  (** [os.MkdirAll(path, 0755)] *)
  os_MkdirAll : gostring → Go W unit;
  (** [*goquery.Document], [goquery.NewDocumentFromReader] *)
  goquery_Document : Type;
  goquery_NewDocumentFromReader : gostring → result goquery_Document;
  (** For every element the selector [tbody > tr] matches, in the order of
      the document: [row.Find("a").Attr("href")], the attribute of the first
      link of the row where there is one. *)
  rowLinks : goquery_Document → list (option gostring)
}.

Section main.
Context {W : Type} `{!System W}.

(** The driver [extractPDF] of [extractPDF.go], which [main] calls last;
    [main] passes its error on, and is embedded for every behaviour of it. *)
Variable extractPDF : list gostring → Go W unit.

(** [func DownloadFile(filepath string, url string) error].  The deferred
    calls run when the function is left, the last one first; their errors
    are dropped. *)
Definition DownloadFile (filepath url : gostring) : Go W unit := λ w,
  match os_Stat filepath w with
  | (w, Panic) => (w, Panic)
  | (w, Ok _) => (w, Ok tt)   (* [os.IsNotExist(nil)] is false *)
  | (w, Err err) =>
      if negb (os_IsNotExist err) then (w, Ok tt)
      else
        match http_Get url w with
        | (w, Panic) => (w, Panic)
        | (w, Err err) => (w, Err err)
        | (w, Ok resp) =>
            let '(w, res) :=
              match os_Create filepath w with
              | (w, Panic) => (w, Panic)
              | (w, Err err) => (w, Err err)
              | (w, Ok out) =>
                  let '(w, res) := io_Copy out resp w in
                  (File_Close out w, res)
              end in
            (Body_Close resp w, res)
        end
  end.

(** [func getPDFFilePath(readedFile *[]byte) ([]string, error)] *)
Definition getPDFFilePath (readedFile : gostring) : result (list gostring) :=
  if len readedFile =? 0 then Err (Errorf "readedFile is empty")
  else
    doc ← goquery_NewDocumentFromReader readedFile;
    Ok (omap (λ href : option gostring,
                match href with
                | None => None                 (* [!exists] *)
                | Some path => if len path >? 0 then Some path else None
                end) (rowLinks doc)).

(** [func getNowManth() string] *)
Definition getNowManth : Go W gostring := gets time_Month.

(** [func makeDirecoty(direcoryName string) error] *)
Definition makeDirecoty (direcoryName : gostring) : Go W unit :=
  os_MkdirAll direcoryName.

Definition PDFRoot : gostring := str "PDF/".

(** The loop of [main] over the links, from the values [first] and
    [localPDFFilePath] have when it is entered.  [log.Fatalln(err)] ends
    the program: the loop ends with the error. *)
Fixpoint downloadPDFs (url : gostring) (remotePDFFilePath : list gostring)
    (first : bool) (localPDFFilePath : list gostring) : Go W (list gostring) :=
  match remotePDFFilePath with
  | [] => mret localPDFFilePath
  | remotePDFPath :: rest =>
      let '(PDFUrl, isUrl) := makeFullPath url remotePDFPath in
      if isUrl then downloadPDFs url rest first localPDFFilePath
      else
        direcoryName ← lift (getDirecotry remotePDFPath);
        (if first then makeDirecoty (PDFRoot ++ direcoryName) else mret tt) ;;
        DownloadFile (PDFRoot ++ remotePDFPath) PDFUrl ;;
        downloadPDFs url rest false (localPDFFilePath ++ [PDFRoot ++ remotePDFPath])
  end.

Definition url : gostring :=
  str "https://www.off.niihama-nct.ac.jp/gakuryo-a/kondate/".

(** [func main()].  A call of [log.Fatalln] ends the program with the
    error it prints; what is written to the log is left out. *)
Definition main : Go W unit :=
  nowMonth ← getNowManth;
  let filepath := str "html/ryoushoku" ++ nowMonth ++ str ".html" in
  ((λ w,
     let '(w, (fileInfos, err)) := ioutil_ReadFile filepath w in
     ((match err with
       | Some _ => DownloadFile filepath (url ++ str "ryoushoku.html")
       | None => mret tt
       end) ;;
      remotePDFFilePath ← lift (getPDFFilePath fileInfos);
      localPDFFilePath ← downloadPDFs url remotePDFFilePath true [];
      if len localPDFFilePath =? 0 then lift (Err (Errorf "PDFFilePath is empty"))
      else extractPDF localPDFFilePath) w) : Go W unit).

(** The links [main] downloads: those without [://]. *)
Definition relativeLinks (remotePDFFilePath : list gostring) : list gostring :=
  List.filter (λ path, negb (Contains path (str "://"))) remotePDFFilePath.

(** Downloading the links one after the other, up to the first error. *)
Fixpoint downloadAll (url : gostring) (links : list gostring) : Go W unit :=
  match links with
  | [] => mret tt
  | path :: rest => DownloadFile (PDFRoot ++ path) (url ++ path) ;; downloadAll url rest
  end.

End main.

(** A small system for the examples: the state is the list of the files on
    disk; every file reads as the same page, which has a row with a
    relative link, a row without a link, a row with an absolute link and a
    row with an empty link; the network serves every address. *)
Definition noSuchFile : error := LibError (str "no such file or directory").

Global Instance exampleSystem : System (list gostring) := {|
  time_Month := λ _, str "April";
  ioutil_ReadFile := λ path w,
    if bool_decide (path ∈ w) then (w, (str "<html>", None))
    else (w, ([], Some noSuchFile));
  os_Stat := λ path w,
    if bool_decide (path ∈ w) then (w, Ok tt) else (w, Err noSuchFile);
  os_IsNotExist := λ _, true;
  http_Response := unit;
  http_Get := λ _ w, (w, Ok tt);
  Body_Close := λ _ w, w;
  os_File := unit;
  os_Create := λ path w, (w ++ [path], Ok tt);
  File_Close := λ _ w, w;
  io_Copy := λ _ _ w, (w, Ok tt);
  os_MkdirAll := λ _ w, (w, Ok tt);
  goquery_Document := unit;
  goquery_NewDocumentFromReader := λ _, Ok tt;
  rowLinks := λ _, [Some (str "R6/04.pdf"); None; Some (str "https://host/05.pdf"); Some []]
|}.

(** A driver that returns at once, for the examples. *)
Definition idleDriver : list gostring → Go (list gostring) unit := λ _, mret tt.

(** ** [patternsToPaths] *)

(** The order [<=] of Go on strings: byte by byte. *)
Fixpoint strLeb (s t : gostring) : bool :=
  match s, t with
  | [], _ => true
  | _ :: _, [] => false
  | c :: s', d :: t' =>
      if (N_of_ascii c <? N_of_ascii d)%N then true
      else if (N_of_ascii d <? N_of_ascii c)%N then false
      else strLeb s' t'
  end.

Definition strLe (s t : gostring) : Prop := strLeb s t = true.

Global Instance strLe_dec (s t : gostring) : Decision (strLe s t) :=
  decide (strLeb s t = true).

(** [sort.Strings(x)]: strings that compare equal are the same string, so
    the sorted slice does not depend on the algorithm. *)
Definition Strings (x : list gostring) : list gostring :=
  merge_sort strLe x.

Section patternsToPaths.
(** The user's home directory, [doublestar.Glob], [os.Stat] and
    [fi.Mode().IsRegular()].  The call does not write to the disk: what
    these return is a function of the argument. *)
Variable homeDir : gostring.
Variable Glob : gostring → result (list gostring).
Variable FileInfo : Type.
Variable Stat : gostring → result FileInfo.
Variable IsRegular : FileInfo → bool.

(** [func expandUser(filename string) string]:
    [strings.Replace(filename, "~", homeDir, -1)] *)
Definition expandUser (filename : gostring) : gostring :=
  c ← filename; if decide (c = "~"%char) then homeDir else [c].

(** [func regularFile(filename string) (bool, error)] *)
Definition regularFile (filename : gostring) : result bool :=
  fi ← Stat filename; Ok (IsRegular fi).

(** The inner loop of [patternsToPaths], over the files of one pattern. *)
Fixpoint appendRegular (files pathList : list gostring) : result (list gostring) :=
  match files with
  | [] => Ok pathList
  | filename :: rest =>
      ok ← regularFile filename;
      if negb ok then appendRegular rest pathList
      else appendRegular rest (pathList ++ [filename])
  end.

(** The outer loop, over the patterns. *)
Fixpoint appendMatches (patternList pathList : list gostring) : result (list gostring) :=
  match patternList with
  | [] => Ok pathList
  | pattern :: rest =>
      let pattern := expandUser pattern in
      files ← Glob pattern;
      pathList ← appendRegular files pathList;
      appendMatches rest pathList
  end.

(** [func patternsToPaths(patternList []string) ([]string, error)].  With
    an error the code returns the list as far as it got; its caller drops
    that list. *)
Definition patternsToPaths (patternList : list gostring) : result (list gostring) :=
  pathList ← appendMatches patternList [];
  Ok (Strings pathList).

(** The regular files [pattern] matches, in the order of [Glob]. *)
Definition regularFiles (pattern : gostring) : list gostring :=
  match Glob (expandUser pattern) with
  | Ok files =>
      List.filter (λ filename,
                     match regularFile filename with Ok ok => ok | _ => false end) files
  | _ => []
  end.

(** [Glob] returns for [pattern], and [os.Stat] for all it matches. *)
Definition readable (pattern : gostring) : Prop :=
  ∃ files, Glob (expandUser pattern) = Ok files
           ∧ Forall (λ filename, ∃ fi, Stat filename = Ok fi) files.

End patternsToPaths.
(** * Properties *)

Section filter_facts.
Implicit Types (σ : heap) (M : pageMap) (tables : list stringTable).

Lemma filterTables_Ok width height acc tables :
  Forall (λ t, t ≠ []) tables →
  filterTables width height acc tables
  = Ok (acc ++ List.filter (passes width height) tables).
Proof.
  intros Hne. revert acc.
  induction Hne as [|t tables Ht _ IH]; intros acc; simpl.
  - by rewrite app_nil_r.
  - destruct t as [|row0 rows]; [done|].
    unfold passes at 1. simpl wh. simpl fst. simpl snd.
    destruct (_ && _); rewrite IH; [|done].
    by rewrite <-app_assoc.
Qed.

Lemma filterTables_Panic width height acc tables :
  [] ∈ tables → filterTables width height acc tables = Panic.
Proof.
  revert acc. induction tables as [|t tables IH]; intros acc Hin.
  - by apply elem_of_nil in Hin.
  - destruct t as [|row0 rows]; [done|].
    apply elem_of_cons in Hin as [?|Hin]; [done|].
    simpl. destruct (_ && _); by apply IH.
Qed.

Lemma filterTables_returns width height acc tables kept :
  filterTables width height acc tables = Ok kept →
  Forall (λ t, t ≠ []) tables.
Proof.
  intros Hok. apply Forall_forall. intros t Hin ->.
  by rewrite (filterTables_Panic _ _ _ _ Hin) in Hok.
Qed.

Lemma filterTables_not_Err width height acc tables e :
  filterTables width height acc tables ≠ Err e.
Proof.
  revert acc. induction tables as [|[|row0 rows] tables IH]; intros acc; simpl; try done.
  destruct (_ && _); apply IH.
Qed.

End filter_facts.

Section filterPages_facts.
Implicit Types (σ : heap) (M : pageMap) (entries : list (Z * list stringTable)).

Lemma len_pos_nonempty {A} (l : list A) : (len l >? 0) = bool_decide (l ≠ []).
Proof. destruct l; unfold len; simpl; [done|]. by rewrite Z.gtb_ltb. Qed.

Lemma filterPages_Ok width height m entries σ M0 :
  σ !! m = Some M0 →
  Forall (λ e, Forall (λ t, t ≠ []) e.2) entries →
  filterPages width height (DocTables (Some m)) entries σ
  = (<[m := foldl (storeKept width height) M0 entries]> σ, Ok tt).
Proof.
  intros Hm Hne. revert σ M0 Hm.
  induction Hne as [|[pageNum tables] entries Ht _ IH]; intros σ M0 Hm; simpl.
  - by rewrite insert_id.
  - go_unfold.
    rewrite (filterTables_Ok _ _ _ _ Ht), app_nil_l.
    unfold storeKept at 2, keptTables. simpl.
    rewrite len_pos_nonempty.
    destruct (decide (List.filter _ tables = [])) as [Hk|Hk].
    + rewrite bool_decide_eq_false_2 by (by intros []).
      unfold mret at 1, Go_ret. by apply IH.
    + rewrite bool_decide_eq_true_2 by done.
      unfold mapAssign. simpl. rewrite Hm.
      rewrite (IH _ (<[pageNum := _]> M0)) by apply lookup_insert_eq.
      by rewrite insert_insert_eq.
Qed.

Lemma filterPages_Panic width height filtered entries σ :
  Exists (λ e, [] ∈ e.2) entries →
  (filterPages width height filtered entries σ).2 = Panic.
Proof.
  intros Hex. revert σ.
  induction entries as [|[pageNum tables] entries IH]; intros σ.
  - by apply Exists_nil in Hex.
  - simpl. go_unfold.
    destruct (filterTables width height [] tables) as [kept|e|] eqn:Hft;
      [|by apply filterTables_not_Err in Hft|done].
    apply Exists_cons in Hex as [Hin|Hex].
    { simpl in Hin. by rewrite (filterTables_Panic _ _ _ _ Hin) in Hft. }
    destruct (len kept >? 0).
    + unfold mapAssign. destruct (pageTables filtered) as [l|]; [|done].
      destruct (σ !! l); [|done]. by apply IH.
    + unfold mret, Go_ret. by apply IH.
Qed.

(** The outer loop writes to the new map only. *)
Lemma filterPages_frame width height m entries σ l :
  l ≠ m →
  (filterPages width height (DocTables (Some m)) entries σ).1 !! l = σ !! l.
Proof.
  intros Hl. revert σ.
  induction entries as [|[pageNum tables] entries IH]; intros σ; [done|].
  simpl. go_unfold.
  destruct (filterTables width height [] tables) as [kept|e|]; [|done..].
  destruct (len kept >? 0).
  - unfold mapAssign. simpl. destruct (σ !! m) as [M|] eqn:Hm; [|done].
    rewrite IH. by rewrite lookup_insert_ne.
  - unfold mret, Go_ret. apply IH.
Qed.

Lemma foldl_storeKept_lookup width height entries M0 (p : Z) :
  NoDup entries.*1 →
  foldl (storeKept width height) M0 entries !! p
  = match (list_to_map entries : pageMap) !! p ≫= keptTables width height with
    | Some kept => Some kept
    | None => M0 !! p
    end.
Proof.
  revert M0. induction entries as [|[k ts] entries IH]; intros M0 Hnd; [done|].
  apply NoDup_cons in Hnd as [Hk Hnd]. simpl foldl. rewrite IH by done.
  simpl list_to_map. destruct (decide (p = k)) as [->|Hpk].
  - rewrite lookup_insert_eq. simpl.
    rewrite (not_elem_of_list_to_map_1 _ k) by done. simpl.
    unfold storeKept. simpl. destruct (keptTables _ _ ts); [|done].
    apply lookup_insert_eq.
  - rewrite lookup_insert_ne by done.
    destruct (_ ≫= _); [done|].
    unfold storeKept. simpl. destruct (keptTables _ _ ts); [|done].
    by rewrite lookup_insert_ne.
Qed.

(** The new map does not depend on the order in which the run-time
    enumerates the receiver's entries. *)
Lemma foldl_storeKept_range width height M entries :
  entries ≡ₚ map_to_list M →
  foldl (storeKept width height) ∅ entries = omap (keptTables width height) M.
Proof.
  intros Hperm. apply map_eq. intros p.
  rewrite foldl_storeKept_lookup, lookup_omap, lookup_empty.
  - rewrite (list_to_map_proper entries (map_to_list M)), list_to_map_to_list; try done.
    + by destruct (_ ≫= _).
    + rewrite Hperm. apply NoDup_fst_map_to_list.
  - rewrite Hperm. apply NoDup_fst_map_to_list.
Qed.

End filterPages_facts.

Section filter_spec.
Implicit Types (σ : heap) (r : docTables) (M : pageMap).

Lemma readMap_alloc σ r : readMap (<[fresh (dom σ) := ∅]> σ) r = readMap σ r.
Proof.
  unfold readMap. destruct (pageTables r) as [l|]; [|done].
  destruct (decide (l = fresh (dom σ))) as [->|Hl].
  - rewrite lookup_insert_eq.
    rewrite (not_elem_of_dom_1 σ (fresh (dom σ))); [done|apply is_fresh].
  - by rewrite lookup_insert_ne.
Qed.

Lemma noEmptyTable_entries M :
  noEmptyTable M → Forall (λ e, Forall (λ t, t ≠ []) e.2) (map_to_list M).
Proof.
  intros HM. apply Forall_forall. intros [p ts] Hin.
  apply elem_of_map_to_list in Hin. by apply (HM p).
Qed.

(** [filter] on a set without zero-row tables: it returns, the new map is
    allocated at a fresh location and holds the passing tables of every
    page that has one. *)
Lemma filter_Ok σ r width height :
  noEmptyTable (readMap σ r) →
  filter r width height σ
  = (<[fresh (dom σ) := omap (keptTables width height) (readMap σ r)]> σ,
     Ok (DocTables (Some (fresh (dom σ))))).
Proof.
  intros Hne. unfold filter, makeMap, rangeMap, gets. go_unfold. simpl.
  rewrite readMap_alloc.
  rewrite (filterPages_Ok _ _ _ _ _ ∅);
    [|apply lookup_insert_eq|by apply noEmptyTable_entries].
  by rewrite insert_insert_eq, (foldl_storeKept_range _ _ (readMap σ r)).
Qed.

(** [filter] on a set that holds a zero-row table panics. *)
Lemma filter_Panic σ r width height pageNum tables :
  readMap σ r !! pageNum = Some tables → [] ∈ tables →
  (filter r width height σ).2 = Panic.
Proof.
  intros Hp Hin. unfold filter, makeMap, rangeMap, gets. go_unfold. simpl.
  rewrite readMap_alloc.
  pose proof (filterPages_Panic width height (DocTables (Some (fresh (dom σ))))
                (map_to_list (readMap σ r)) (<[fresh (dom σ) := ∅]> σ)) as HP.
  destruct (filterPages _ _ _ _ _) as [σ' [[]|e|]]; simpl in *; try done.
  - discriminate HP. apply Exists_exists. exists (pageNum, tables).
    split; [by apply elem_of_map_to_list|done].
  - discriminate HP. apply Exists_exists. exists (pageNum, tables).
    split; [by apply elem_of_map_to_list|done].
Qed.

Lemma filter_returns σ r width height σ' r' :
  filter r width height σ = (σ', Ok r') → noEmptyTable (readMap σ r).
Proof.
  intros Hf p ts Hp. apply Forall_forall. intros t Hin ->.
  pose proof (filter_Panic σ r width height p ts Hp Hin) as HP.
  by rewrite Hf in HP.
Qed.

(** The store after [filter], whatever the outcome, agrees with the store
    before at every location that was allocated. *)
Lemma filter_frame σ r width height l :
  is_Some (σ !! l) → (filter r width height σ).1 !! l = σ !! l.
Proof.
  intros Hl. unfold filter, makeMap, rangeMap, gets. go_unfold. simpl.
  assert (l ≠ fresh (dom σ)) as Hne.
  { intros ->. apply elem_of_dom in Hl. by apply is_fresh in Hl. }
  pose proof (filterPages_frame width height (fresh (dom σ))
                (map_to_list (readMap (<[fresh (dom σ) := ∅]> σ) r))
                (<[fresh (dom σ) := ∅]> σ) l Hne) as HF.
  destruct (filterPages _ _ _ _ _) as [σ' [[]|e|]]; simpl in *;
    by rewrite HF, lookup_insert_ne.
Qed.

Lemma passes_spec width height t :
  passes width height t = true ↔ width ≤ (wh t).1 ∧ height ≤ (wh t).2.
Proof. unfold passes. by rewrite andb_true_iff, !Z.geb_le. Qed.

Lemma keptTables_Some width height tables kept :
  keptTables width height tables = Some kept ↔
  kept = List.filter (passes width height) tables ∧ kept ≠ [].
Proof.
  unfold keptTables. simpl. destruct (decide _) as [He|Hne]; split.
  - done.
  - intros [-> ?]. done.
  - intros [= <-]. done.
  - by intros [-> _].
Qed.

(** The contents of the set [filter] returns, page by page. *)
Lemma filter_lookup σ σ' r r' width height (p : Z) :
  filter r width height σ = (σ', Ok r') →
  readMap σ' r' !! p = readMap σ r !! p ≫= keptTables width height.
Proof.
  intros Hf. pose proof (filter_returns _ _ _ _ _ _ Hf) as Hne.
  rewrite (filter_Ok _ _ _ _ Hne) in Hf. injection Hf as <- <-.
  unfold readMap at 1. cbn [pageTables].
  rewrite lookup_insert_eq. cbn [default from_option]. apply lookup_omap.
Qed.

End filter_spec.

(** ** What [filter] returns *)

(** The part of C1 that holds of the code.  For every set [S] (the
    contents behind [r]) and thresholds [(width, height)]: when [filter]
    returns, every table of the result has
    width >= [width] and height >= [height] (as [wh] measures them), every
    table of [S] that meets both thresholds is in the result under its page,
    and the tables the result keeps for a page are those of [S] in their
    original order (the sub-sequence of the passing ones).  [filter] does
    return on every set that holds no zero-row table. *)
Theorem filter_correct (σ : heap) (r : docTables) (width height : Z) :
  (noEmptyTable (readMap σ r) → ∃ σ' r', filter r width height σ = (σ', Ok r'))
  ∧ ∀ σ' r', filter r width height σ = (σ', Ok r') →
      (∀ p kept t, readMap σ' r' !! p = Some kept → t ∈ kept →
         width ≤ (wh t).1 ∧ height ≤ (wh t).2)
      ∧ (∀ p tables t, readMap σ r !! p = Some tables → t ∈ tables →
           width ≤ (wh t).1 → height ≤ (wh t).2 →
           ∃ kept, readMap σ' r' !! p = Some kept ∧ t ∈ kept)
      ∧ (∀ p kept, readMap σ' r' !! p = Some kept →
           ∃ tables, readMap σ r !! p = Some tables
                     ∧ kept = List.filter (passes width height) tables
                     ∧ sublist kept tables).
Proof.
  split.
  { intros Hne. eexists _, _. by apply filter_Ok. }
  intros σ' r' Hf.
  pose proof (λ p, filter_lookup _ _ _ _ width height p Hf) as HR.
  split; [|split].
  - intros p kept t Hp Hin. rewrite HR in Hp.
    destruct (readMap σ r !! p) as [tables|]; [|done]. simpl in Hp.
    apply keptTables_Some in Hp as [-> _].
    apply list_elem_of_In, filter_In in Hin as [_ Hin]. by apply passes_spec.
  - intros p tables t Hp Hin Hw Hh. rewrite HR, Hp. simpl.
    assert (t ∈ List.filter (passes width height) tables) as Hk.
    { apply list_elem_of_In, filter_In. split; [by apply list_elem_of_In|].
      by apply passes_spec. }
    exists (List.filter (passes width height) tables). split; [|done].
    apply keptTables_Some. split; [done|]. intros He. rewrite He in Hk.
    by apply elem_of_nil in Hk.
  - intros p kept Hp. rewrite HR in Hp.
    destruct (readMap σ r !! p) as [tables|]; [|done]. simpl in Hp.
    apply keptTables_Some in Hp as [-> _].
    exists tables. split; [done|]. split; [done|].
    clear. induction tables as [|t tables IH]; simpl; [constructor|].
    destruct (passes _ _ t); by constructor.
Qed.

(** The scenario of the specification: [filter(2, 2)] returns, and every
    table it keeps is at least 2 wide and 2 high. *)
Lemma filter_correct_scenario :
  ∃ σ' r',
    filter scenarioDoc 2 2 scenarioHeap = (σ', Ok r')
    ∧ ∀ p kept t, readMap σ' r' !! p = Some kept → t ∈ kept →
        2 ≤ (wh t).1 ∧ 2 ≤ (wh t).2.
Proof.
  exists (filter scenarioDoc 2 2 scenarioHeap).1, (DocTables (Some 2%positive)).
  assert (filter scenarioDoc 2 2 scenarioHeap
          = ((filter scenarioDoc 2 2 scenarioHeap).1, Ok (DocTables (Some 2%positive)))) as Hf.
  { vm_compute. reflexivity. }
  split; [exact Hf|].
  exact (proj1 (proj2 (filter_correct scenarioHeap scenarioDoc 2 2) _ _ Hf)).
Defined.

(** ** C1: a table that passes and is not in the result *)

(** C1 (the code at its failing inputs).  A zero-row table has width 0 and
    height 0, as [wh] measures them, so with thresholds of 0 or less (the
    driver's defaults are 0 and 0) it meets both; yet on every set that
    holds such a table [filter] panics at [table[0]] and returns no set:
    the table that passes appears in no result. *)
Theorem filter_loses_passing_table (σ : heap) (r : docTables) (width height : Z)
    (pageNum : Z) (tables : list stringTable) :
  readMap σ r !! pageNum = Some tables → [] ∈ tables → width ≤ 0 → height ≤ 0 →
  (width ≤ (wh []).1 ∧ height ≤ (wh []).2)
  ∧ passes width height [] = true
  ∧ (filter r width height σ).2 = Panic
  ∧ ∀ σ' r', filter r width height σ ≠ (σ', Ok r').
Proof.
  intros Hp Hin Hw Hh.
  pose proof (filter_Panic σ r width height pageNum tables Hp Hin) as HP.
  split; [done|]. split; [by apply passes_spec|]. split; [done|].
  intros σ' r' Hf. by rewrite Hf in HP.
Qed.

Lemma filter_loses_passing_table_at_0_0 :
  (0 ≤ (wh []).1 ∧ 0 ≤ (wh []).2)
  ∧ passes 0 0 [] = true
  ∧ (filter scenarioDoc 0 0 zeroRowHeap).2 = Panic
  ∧ ∀ σ' r', filter scenarioDoc 0 0 zeroRowHeap ≠ (σ', Ok r').
Proof.
  apply (filter_loses_passing_table zeroRowHeap scenarioDoc 0 0 1 [[]]).
  - vm_compute. reflexivity.
  - apply list_elem_of_here.
  - done.
  - done.
Defined.

(** ** C2: [filter] and zero-row tables *)

(** C2 (the code at its failing inputs).  [wh] guards the zero-row table,
    [filter] does not: on every set that holds a zero-row table [filter]
    panics at [table[0]], whatever the thresholds. *)
Theorem filter_zero_row_table_panics (σ : heap) (r : docTables) (width height : Z)
    (pageNum : Z) (tables : list stringTable) :
  readMap σ r !! pageNum = Some tables → [] ∈ tables →
  wh [] = (0, 0) ∧ (filter r width height σ).2 = Panic.
Proof. intros Hp Hin. split; [done|]. by apply (filter_Panic _ _ _ _ pageNum tables). Qed.

Lemma filter_zero_row_table_panics_at_1_1 :
  wh [] = (0, 0) ∧ (filter scenarioDoc 1 1 zeroRowHeap).2 = Panic.
Proof.
  apply (filter_zero_row_table_panics zeroRowHeap scenarioDoc 1 1 1 [[]]).
  - vm_compute. reflexivity.
  - apply list_elem_of_here.
Defined.

(** ** C7: [filter] leaves its receiver alone *)

Section describe_facts.
Variable Quote : gostring → gostring.

(** [describe] reads the store only through the contents behind [r]. *)
Lemma describe_ext (σ σ' : heap) (r : docTables) (level : Z) :
  readMap σ' r = readMap σ r → describe Quote σ' r level = describe Quote σ r level.
Proof. intros HM. unfold describe, numTables, pageNumbers. by rewrite HM. Qed.

Lemma filter_readMap (σ : heap) (r : docTables) (width height : Z) :
  valid σ r → readMap (filter r width height σ).1 r = readMap σ r.
Proof.
  unfold valid, readMap. destruct (pageTables r) as [l|]; [|done].
  intros Hl. by rewrite filter_frame.
Qed.

End describe_facts.

(** C7.  For every set behind a handle [r] of the store and all thresholds,
    the call [r.filter(width, height)], whether it returns or panics, leaves
    the contents behind [r] as they were, so [describe] on [r] gives the same
    text after the call as before it, at every level; and the set it returns
    lives at a location of its own. *)
Theorem filter_preserves_receiver (Quote : gostring → gostring)
    (σ : heap) (r : docTables) (width height : Z) :
  valid σ r →
  readMap (filter r width height σ).1 r = readMap σ r
  ∧ (∀ level, describe Quote (filter r width height σ).1 r level = describe Quote σ r level)
  ∧ (∀ r', (filter r width height σ).2 = Ok r' →
       pageTables r' ≠ pageTables r ∧ ¬ valid σ r').
Proof.
  intros Hv. split; [by apply filter_readMap|]. split.
  - intros level. apply describe_ext. by apply filter_readMap.
  - intros r' Hr'.
    assert (pageTables r' = Some (fresh (dom σ))) as Hfresh.
    { revert Hr'. unfold filter, makeMap, rangeMap, gets. go_unfold. simpl.
      destruct (filterPages _ _ _ _ _) as [σ' [[]|e|]]; simpl; try done.
      by intros [= <-]. }
    assert (¬ valid σ r') as Hnv.
    { unfold valid. rewrite Hfresh. intros Hs.
      apply elem_of_dom in Hs. by apply is_fresh in Hs. }
    split; [|done]. intros Heq. apply Hnv. unfold valid in *. by rewrite Heq.
Qed.

Lemma filter_preserves_receiver_scenario :
  valid scenarioHeap scenarioDoc
  ∧ ∀ level,
      describe (λ cell, cell) (filter scenarioDoc 2 2 scenarioHeap).1 scenarioDoc level
      = describe (λ cell, cell) scenarioHeap scenarioDoc level.
Proof.
  assert (valid scenarioHeap scenarioDoc) as Hv.
  { vm_compute. eexists. reflexivity. }
  split; [exact Hv|].
  exact (proj1 (proj2 (filter_preserves_receiver (λ cell, cell) scenarioHeap scenarioDoc 2 2 Hv))).
Defined.

(** ** C9: the one-newline cases of [describe] *)

(** C9.  [describe(0)] on any set, and [describe(level)] at any level on a
    set whose [numTables] is zero, is exactly the one-character string
    of a newline. *)
Theorem describe_newline (Quote : gostring → gostring) (σ : heap) (r : docTables) :
  describe Quote σ r 0 = ["010"%char]
  ∧ ∀ level, numTables σ r = 0 → describe Quote σ r level = ["010"%char].
Proof.
  split; [done|]. intros level Hn. unfold describe. rewrite Hn.
  by rewrite orb_true_r.
Qed.

Lemma describe_newline_no_table :
  numTables noTableHeap scenarioDoc = 0
  ∧ describe (λ cell, cell) noTableHeap scenarioDoc 4 = ["010"%char].
Proof.
  assert (numTables noTableHeap scenarioDoc = 0) as Hn by (vm_compute; reflexivity).
  split; [exact Hn|].
  exact (proj2 (describe_newline (λ cell, cell) noTableHeap scenarioDoc) 4 Hn).
Defined.

(** The scenario of the specification, described at level 2 after
    [filter(2, 2)]: two lines. *)
Example describe_scenario :
  describe (λ cell, cell) (filter scenarioDoc 2 2 scenarioHeap).1
    (DocTables (Some 2%positive)) 2
  = str "1 pages 1 tables" ++ nl ++ str "   page 2: 1 tables" ++ nl.
Proof. vm_compute. reflexivity. Qed.

(** ** The order of [range] over a map

    Go leaves the order in which [range] enumerates a map open.  The three
    loops over [r.pageTables] give the same result for every order. *)

Section range_order.
Implicit Types (σ : heap) (r : docTables) (M : pageMap)
  (entries : list (Z * list stringTable)).

Lemma foldl_len_sum entries (n : Z) :
  foldl (λ n e, n + len e.2) n entries = n + foldr (λ e s, len e.2 + s) 0 entries.
Proof.
  revert n. induction entries as [|e entries IH]; intros n; simpl; [lia|].
  rewrite IH. lia.
Qed.

(** [numTables]: the sum does not depend on the order. *)
Lemma numTables_order σ r entries :
  entries ≡ₚ map_to_list (readMap σ r) →
  foldl (λ n e, n + len e.2) 0 entries = numTables σ r.
Proof.
  intros Hperm. unfold numTables. rewrite !foldl_len_sum. f_equal.
  apply (foldr_permutation (=) (λ e s, len e.2 + s) 0); [|done].
  intros j1 e1 j2 e2 s _ _ _. lia.
Qed.

(** [numTables] is zero exactly when no page holds a table. *)
Lemma numTables_zero σ r :
  numTables σ r = 0 ↔ ∀ p tables, readMap σ r !! p = Some tables → tables = [].
Proof.
  unfold numTables. rewrite foldl_len_sum, Z.add_0_l.
  assert (∀ entries : list (Z * list stringTable),
            0 ≤ foldr (λ e s, len e.2 + s) 0 entries) as Hnonneg.
  { induction entries as [|e entries IH]; simpl; [done|]. unfold len at 1. lia. }
  assert (∀ entries : list (Z * list stringTable),
            foldr (λ e s, len e.2 + s) 0 entries = 0 ↔ Forall (λ e, e.2 = []) entries)
    as Hzero.
  { induction entries as [|e entries IH]; simpl; [by split|].
    rewrite Forall_cons, <-IH. specialize (Hnonneg entries).
    destruct e as [p [|t tables]]; unfold len in *; simpl in *.
    - split; [by intros ?|by intros [_ ?]].
    - split; [lia|by intros [? _]]. }
  rewrite Hzero, Forall_forall. split.
  - intros Hall p tables Hp. by apply (Hall (p, tables)), elem_of_map_to_list.
  - intros Hall [p tables] Hin. simpl. apply (Hall p). by apply elem_of_map_to_list.
Qed.

(** [pageNumbers]: sorting cancels the order of enumeration. *)
Lemma pageNumbers_order σ r entries :
  entries ≡ₚ map_to_list (readMap σ r) →
  merge_sort Z.le entries.*1 = pageNumbers σ r.
Proof.
  intros Hperm. unfold pageNumbers.
  apply (Sorted_unique Z.le); [apply Sorted_merge_sort, _..|].
  by rewrite !merge_sort_Permutation, Hperm.
Qed.

(** [filter]: the loop over any enumeration of the receiver's entries has
    the outcome of the loop over [map_to_list], and on return the store. *)
Lemma filterPages_order width height m σ M entries :
  σ !! m = Some ∅ →
  entries ≡ₚ map_to_list M →
  (filterPages width height (DocTables (Some m)) entries σ).2
  = (filterPages width height (DocTables (Some m)) (map_to_list M) σ).2
  ∧ ((filterPages width height (DocTables (Some m)) entries σ).2 = Ok tt →
     filterPages width height (DocTables (Some m)) entries σ
     = filterPages width height (DocTables (Some m)) (map_to_list M) σ).
Proof.
  intros Hm Hperm.
  destruct (decide (Forall (λ e : Z * list stringTable, Forall (λ t, t ≠ []) e.2) entries))
    as [Hall|Hex].
  - assert (Forall (λ e : Z * list stringTable, Forall (λ t, t ≠ []) e.2) (map_to_list M))
      as Hall' by (by rewrite <-Hperm).
    rewrite !(filterPages_Ok _ _ _ _ _ ∅) by done.
    by rewrite (foldl_storeKept_range _ _ M entries),
               (foldl_storeKept_range _ _ M (map_to_list M)).
  - assert (Exists (λ e : Z * list stringTable, [] ∈ e.2) entries) as Hbad.
    { apply not_Forall_Exists in Hex; [|apply _].
      apply Exists_exists in Hex as (e & Hin & He). apply Exists_exists. exists e.
      split; [done|]. apply not_Forall_Exists in He; [|apply _].
      apply Exists_exists in He as (t & Ht & Hnn).
      destruct t; [done|]. by destruct Hnn. }
    assert (Exists (λ e : Z * list stringTable, [] ∈ e.2) (map_to_list M)) as Hbad'
      by (by rewrite <-Hperm).
    rewrite !filterPages_Panic by done. split; [done|discriminate].
Qed.

End range_order.

(** ** C3: entries with an empty table list *)

Section extraction_facts.
Context {RT : Runtime}.
Variable NFKC : gostring → gostring.
Variable File : Type.
Variable Open : gostring → result File.
Variable NewPdfReaderLazy : File → result PdfReader.

(** The loop of [extractTables] stores, for every page it visits, the list
    the page extraction returned, and touches no other key. *)
Lemma extractPages_Ok (pdfReader : PdfReader) (m : loc) (pageNums : list Z)
    (σ σ' : heap) (M0 : pageMap) :
  σ !! m = Some M0 →
  extractPages NFKC pdfReader (DocTables (Some m)) pageNums σ = (σ', Ok tt) →
  ∃ M', σ' = <[m := M']> σ
    ∧ ∀ p, (p ∈ pageNums → ∃ tables, extractPageTables NFKC pdfReader p = Ok tables
                                      ∧ M' !! p = Some tables)
           ∧ (p ∉ pageNums → M' !! p = M0 !! p).
Proof.
  revert σ M0. induction pageNums as [|pageNum pageNums IH]; intros σ M0 Hm Hrun.
  - injection Hrun as <-. exists M0. split; [by rewrite insert_id|].
    intros p. split; [intros Hin; by apply elem_of_nil in Hin|done].
  - simpl in Hrun. go_unfold_in Hrun.
    destruct (extractPageTables NFKC pdfReader pageNum) as [tables|e|] eqn:Hpage;
      simpl in Hrun; [|done..].
    unfold mapAssign in Hrun. simpl in Hrun. rewrite Hm in Hrun.
    apply (IH _ (<[pageNum := tables]> M0)) in Hrun as (M' & -> & HM');
      [|apply lookup_insert_eq].
    exists M'. split; [by rewrite insert_insert_eq|].
    intros p. destruct (HM' p) as [Hin Hnotin]. split.
    + intros Hp. destruct (decide (p ∈ pageNums)) as [Hr|Hr]; [by apply Hin|].
      apply elem_of_cons in Hp as [->|Hp]; [|done].
      exists tables. split; [done|]. rewrite Hnotin by done. apply lookup_insert_eq.
    + intros Hp. apply not_elem_of_cons in Hp as [Hne Hp].
      rewrite Hnotin by done. by rewrite lookup_insert_ne.
Qed.

(** What [extractTables] returns: an entry for every page of the clamped
    range, holding the list the page extraction returned, and no other. *)
Lemma extractTables_Ok (inPath : gostring) (firstPage lastPage : Z)
    (σ σ' : heap) (d : docTables) :
  extractTables NFKC File Open NewPdfReaderLazy inPath firstPage lastPage σ = (σ', Ok d) →
  ∃ f pdfReader numPages,
    Open inPath = Ok f ∧ NewPdfReaderLazy f = Ok pdfReader
    ∧ GetNumPages pdfReader = Ok numPages
    ∧ ∀ p, if decide (clampFirst firstPage ≤ p ≤ clampLast lastPage numPages)
           then ∃ tables, extractPageTables NFKC pdfReader p = Ok tables
                          ∧ readMap σ' d !! p = Some tables
           else readMap σ' d !! p = None.
Proof.
  unfold extractTables. go_unfold. intros Hrun.
  destruct (Open inPath) as [f|e|] eqn:Hf; simpl in Hrun; [|done..].
  destruct (NewPdfReaderLazy f) as [pdfReader|e|] eqn:Hr; simpl in Hrun; [|done..].
  destruct (GetNumPages pdfReader) as [numPages|e|] eqn:Hn; simpl in Hrun; [|done..].
  exists f, pdfReader, numPages. do 3 (split; [done|]).
  unfold makeMap in Hrun. simpl in Hrun.
  destruct (extractPages _ _ _ _ _) as [σ1 [[]|e|]] eqn:Hloop; [|done..].
  injection Hrun as <- <-.
  apply (extractPages_Ok _ _ _ _ _ ∅) in Hloop as (M' & -> & HM');
    [|apply lookup_insert_eq].
  intros p. destruct (HM' p) as [Hin Hnotin].
  unfold readMap. simpl. rewrite lookup_insert_eq. simpl.
  case_decide as Hp.
  - apply Hin. apply elem_of_seqZ. lia.
  - rewrite Hnotin; [done|]. rewrite elem_of_seqZ. lia.
Qed.

End extraction_facts.

(** C3 (as the code has it).  Every set [filter] returns holds no entry
    with an empty table list.  A set [extractTables] returns holds an entry
    for every page of the clamped page range, with the list of tables the
    page extraction returned, be it empty. *)
Theorem no_empty_entries_after_filter {RT : Runtime}
    (NFKC : gostring → gostring) (File : Type) (Open : gostring → result File)
    (NewPdfReaderLazy : File → result PdfReader) (σ : heap) :
  (∀ r width height σ' r', filter r width height σ = (σ', Ok r') →
     ∀ p kept, readMap σ' r' !! p = Some kept → kept ≠ [])
  ∧ (∀ inPath firstPage lastPage σ' d,
       extractTables NFKC File Open NewPdfReaderLazy inPath firstPage lastPage σ
         = (σ', Ok d) →
       ∃ f pdfReader numPages,
         Open inPath = Ok f ∧ NewPdfReaderLazy f = Ok pdfReader
         ∧ GetNumPages pdfReader = Ok numPages
         ∧ ∀ p, clampFirst firstPage ≤ p ≤ clampLast lastPage numPages →
             ∃ tables, extractPageTables NFKC pdfReader p = Ok tables
                       ∧ readMap σ' d !! p = Some tables).
Proof.
  split.
  - intros r width height σ' r' Hf p kept Hp.
    rewrite (filter_lookup _ _ _ _ _ _ _ Hf) in Hp.
    destruct (readMap σ r !! p) as [tables|]; [|done]. simpl in Hp.
    by apply keptTables_Some in Hp as [_ ?].
  - intros inPath firstPage lastPage σ' d Hrun.
    apply extractTables_Ok in Hrun as (f & pdfReader & numPages & Hf & Hr & Hn & Hp).
    exists f, pdfReader, numPages. do 3 (split; [done|]).
    intros p Hrange. specialize (Hp p). by rewrite decide_True in Hp.
Qed.

(** Both halves at work: the blank one-page document is extracted to a set
    with the entry [1 ↦ []]; filtering the scenario leaves no empty entry. *)
Lemma no_empty_entries_after_filter_scenario :
  (∀ p kept,
     readMap (filter scenarioDoc 2 2 scenarioHeap).1 (DocTables (Some 2%positive)) !! p
       = Some kept → kept ≠ [])
  ∧ ∃ tables,
      extractPageTables (RT := amd64) (λ text, text) blankPdf 1 = Ok tables
      ∧ readMap (extractTables (RT := amd64) (λ text, text) unit (λ _, Ok ()) (λ _, Ok blankPdf)
                   (str "PDF/2024/June.pdf") (-1) 10000 ∅).1
                (DocTables (Some 1%positive)) !! 1 = Some tables.
Proof.
  pose proof (no_empty_entries_after_filter (RT := amd64) (λ text, text) unit (λ _, Ok ())
                (λ _, Ok blankPdf)) as Hthm.
  split.
  - apply (proj1 (Hthm scenarioHeap) scenarioDoc 2 2). vm_compute. reflexivity.
  - destruct (proj2 (Hthm ∅) (str "PDF/2024/June.pdf") (-1) 10000
                (extractTables (RT := amd64) (λ text, text) unit (λ _, Ok ()) (λ _, Ok blankPdf)
                   (str "PDF/2024/June.pdf") (-1) 10000 ∅).1
                (DocTables (Some 1%positive)))
      as (f & pdfReader & numPages & _ & [= <-] & [= <-] & Hp).
    + vm_compute. reflexivity.
    + apply (Hp 1). vm_compute. split; discriminate.
Defined.

(** Extraction does store an entry with an empty table list: the blank
    one-page document gives the map [1 ↦ []]. *)
Lemma extractTables_stores_empty_entry :
  ∃ σ' d,
    extractTables (RT := amd64) (λ text, text) unit (λ _, Ok ()) (λ _, Ok blankPdf)
      (str "PDF/2024/June.pdf") (-1) 10000 ∅ = (σ', Ok d)
    ∧ readMap σ' d !! 1 = Some [].
Proof.
  exists (<[1%positive := <[1 := []]> ∅]> ∅), (DocTables (Some 1%positive)).
  split; vm_compute; reflexivity.
Qed.

(** ** C4: [normalize] *)

(** C4 (the code at its failing input).  On the text [a], vertical tab,
    vertical tab, [b], which is ASCII and so in NFKC form, [normalize]
    returns the text as it is: the class [\s] of the pattern has no vertical
    tab (the cutset of [Trim] has), so the run is not replaced, and the
    output holds two white-space characters in a row. *)
Theorem normalize_keeps_vertical_tabs (NFKC : gostring → gostring) :
  NFKC twoVT = twoVT →
  normalize NFKC twoVT = twoVT ∧ hasWhitePair (normalize NFKC twoVT) = true.
Proof. intros HN. unfold normalize. rewrite HN. by vm_compute. Qed.

Lemma normalize_keeps_vertical_tabs_ascii :
  normalize (λ text, text) twoVT = twoVT
  ∧ hasWhitePair (normalize (λ text, text) twoVT) = true.
Proof. apply (normalize_keeps_vertical_tabs (λ text, text)). reflexivity. Defined.

(** ** What [normalize] does achieve *)

Section reduceSpaces_facts.
Implicit Types (s text : gostring) (c : ascii).

Lemma isSpace_isWhite c : isSpace c = true → isWhite c = true.
Proof.
  unfold isSpace, isWhite. rewrite !bool_decide_eq_true, !elem_of_cons.
  intros [->|[->|[->|[->|[->|Hnil]]]]]; [tauto..|by apply elem_of_nil in Hnil].
Qed.

Lemma inCutset_isWhite c : inCutset c = true → isWhite c = true.
Proof.
  unfold inCutset, isWhite. rewrite !bool_decide_eq_true, !elem_of_cons.
  intros [->|[->|[->|[->|[->|Hnil]]]]]; [tauto..|by apply elem_of_nil in Hnil].
Qed.

(** A white-space byte is in the cutset, or it is the form feed, which is
    of the class [\s]. *)
Lemma isWhite_cases c : isWhite c = true → inCutset c = true ∨ isSpace c = true.
Proof.
  unfold inCutset, isWhite, isSpace. rewrite !bool_decide_eq_true, !elem_of_cons.
  intros [->|[->|[->|[->|[->|[->|Hnil]]]]]]; [tauto..|by apply elem_of_nil in Hnil].
Qed.

(** After the replacement: the text is collapsed, and a text that continues
    a run does not start with a byte of the class. *)
Lemma replaceRuns_collapsed inRun text :
  collapsed (replaceRuns inRun text) = true
  ∧ (inRun = true → ∀ c, head (replaceRuns inRun text) = Some c → isSpace c = false).
Proof.
  revert inRun. induction text as [|c text IH]; intros inRun; [done|].
  simpl. destruct (isSpace c) eqn:Hc.
  - destruct (IH true) as [Hcol Hhead]. destruct inRun.
    + split; [done|]. intros _. by apply Hhead.
    + split; [|done]. simpl. rewrite Hcol, andb_true_r.
      destruct (replaceRuns true text) as [|c' rest] eqn:Hrest; [done|].
      simpl. by rewrite (Hhead eq_refl c').
  - destruct (IH false) as [Hcol _]. split.
    + simpl. by rewrite Hc, Hcol.
    + intros _ c' [= <-]. done.
Qed.

(** On a collapsed text the replacement changes nothing. *)
Lemma replaceRuns_id text :
  collapsed text = true → replaceRuns false text = text.
Proof.
  induction text as [|c text IH]; [done|]. simpl.
  destruct (isSpace c) eqn:Hc.
  - rewrite !andb_true_iff, bool_decide_eq_true. intros [[-> Hnext] Hcol].
    f_equal. destruct text as [|c' text]; [done|].
    apply negb_true_iff in Hnext. specialize (IH Hcol).
    simpl in *. by rewrite Hnext in *.
  - simpl. intros Hcol. by rewrite IH.
Qed.

Lemma collapsed_app_l s1 s2 : collapsed (s1 ++ s2) = true → collapsed s1 = true.
Proof.
  induction s1 as [|c s1 IH]; [done|]. simpl.
  rewrite !andb_true_iff. intros [Hc Hrest]. split; [|by apply IH].
  destruct (isSpace c); [|done]. apply andb_true_iff in Hc as [-> Hnext].
  simpl. by destruct s1.
Qed.

Lemma collapsed_app_r s1 s2 : collapsed (s1 ++ s2) = true → collapsed s2 = true.
Proof.
  induction s1 as [|c s1 IH]; [done|]. simpl.
  rewrite !andb_true_iff. intros [_ Hrest]. by apply IH.
Qed.

(** [TrimLeft] cuts a prefix of cutset bytes, and what is left does not
    start with one. *)
Lemma TrimLeft_spec s :
  ∃ cut, s = cut ++ TrimLeft s ∧ Forall (λ c, inCutset c = true) cut
         ∧ ∀ c, head (TrimLeft s) = Some c → inCutset c = false.
Proof.
  induction s as [|c s (cut & Hs & Hcut & Hhead)]; [by exists []|].
  simpl. destruct (inCutset c) eqn:Hc.
  - exists (c :: cut). split; [by rewrite Hs at 1|]. split; [by constructor|done].
  - exists []. split; [done|]. split; [done|]. by intros c' [= <-].
Qed.

Lemma TrimLeft_id s :
  (∀ c, head s = Some c → inCutset c = false) → TrimLeft s = s.
Proof. destruct s as [|c s]; [done|]. intros Hhead. simpl. by rewrite Hhead. Qed.

Lemma TrimRight_spec s :
  ∃ cut, s = TrimRight s ++ cut ∧ Forall (λ c, inCutset c = true) cut
         ∧ ∀ c, last (TrimRight s) = Some c → inCutset c = false.
Proof.
  unfold TrimRight. destruct (TrimLeft_spec (reverse s)) as (cut & Hs & Hcut & Hhead).
  exists (reverse cut). split; [|split].
  - rewrite <-reverse_app, <-Hs. by rewrite reverse_involutive.
  - by apply Forall_reverse.
  - intros c. rewrite last_reverse. apply Hhead.
Qed.

Lemma TrimRight_id s :
  (∀ c, last s = Some c → inCutset c = false) → TrimRight s = s.
Proof.
  intros Hlast. unfold TrimRight. rewrite TrimLeft_id, reverse_involutive; [done|].
  intros c. rewrite head_reverse. apply Hlast.
Qed.

(** [Trim] leaves a text that [inCutset] does not hold of at either end. *)
Lemma Trim_trimmed s : trimmed inCutset (Trim s).
Proof.
  unfold Trim. destruct (TrimLeft_spec s) as (_ & _ & _ & Hhead).
  destruct (TrimRight_spec (TrimLeft s)) as (cut & Hs & _ & Hlast).
  split; [|done]. intros c Hc. apply Hhead. rewrite Hs.
  destruct (TrimRight (TrimLeft s)); [done|]. exact Hc.
Qed.

Lemma Trim_id s : trimmed inCutset s → Trim s = s.
Proof.
  intros [Hhead Hlast]. unfold Trim. rewrite TrimLeft_id by done. by apply TrimRight_id.
Qed.

Lemma Trim_collapsed s : collapsed s = true → collapsed (Trim s) = true.
Proof.
  intros Hs. unfold Trim.
  destruct (TrimLeft_spec s) as (cut & Hl & _).
  destruct (TrimRight_spec (TrimLeft s)) as (cut' & Hr & _).
  rewrite Hl in Hs. apply collapsed_app_r in Hs.
  rewrite Hr in Hs. by apply collapsed_app_l in Hs.
Qed.

Lemma reduceSpaces_collapsed text : collapsed (reduceSpaces text) = true.
Proof. apply Trim_collapsed, replaceRuns_collapsed. Qed.

Lemma reduceSpaces_trimmed text : trimmed inCutset (reduceSpaces text).
Proof. apply Trim_trimmed. Qed.

(** [reduceSpaces] is idempotent. *)
Lemma reduceSpaces_idem text : reduceSpaces (reduceSpaces text) = reduceSpaces text.
Proof.
  unfold reduceSpaces at 1.
  rewrite replaceRuns_id by apply reduceSpaces_collapsed.
  apply Trim_id, reduceSpaces_trimmed.
Qed.

(** In a collapsed text the only byte of the class [\s] is the space. *)
Lemma collapsed_isSpace s c : collapsed s = true → c ∈ s → isSpace c = true → c = SP.
Proof.
  induction s as [|c' s IH]; intros Hcol Hin Hc; [by apply elem_of_nil in Hin|].
  simpl in Hcol. apply andb_true_iff in Hcol as [Hc' Hcol].
  apply elem_of_cons in Hin as [->|Hin]; [|by apply IH].
  rewrite Hc in Hc'. by apply andb_true_iff in Hc' as [?%bool_decide_eq_true _].
Qed.

End reduceSpaces_facts.

Section normalize_facts.
Variable NFKC : gostring → gostring.
Hypothesis laws : NFKCLaws NFKC.
Implicit Types (s text u : gostring) (c : ascii).

(** The replacement keeps a text in normal form: it puts spaces where
    white space stood. *)
Lemma replaceRuns_normal text :
  (∀ u, NFKC (u ++ text) = u ++ text →
        NFKC (u ++ replaceRuns false text) = u ++ replaceRuns false text)
  ∧ (NFKC text = text → NFKC (replaceRuns true text) = replaceRuns true text).
Proof.
  induction text as [|c text [IHfalse IHtrue]]; [done|].
  simpl. destruct (isSpace c) eqn:Hc.
  - pose proof (isSpace_isWhite c Hc) as Hw. split.
    + intros u Hu. apply (NFKC_white NFKC laws) in Hu as [Hu Htext]; [|done].
      apply (NFKC_white NFKC laws); [done|]. split; [done|by apply IHtrue].
    + intros Htext. apply (NFKC_white NFKC laws []) in Htext as [_ Htext]; [|done].
      by apply IHtrue.
  - split.
    + intros u Hu. rewrite (cons_middle c u), app_assoc in Hu.
      rewrite (cons_middle c u), app_assoc. by apply IHfalse.
    + intros Htext. by apply (IHfalse [c]).
Qed.

Lemma TrimLeft_normal s : NFKC s = s → NFKC (TrimLeft s) = TrimLeft s.
Proof.
  induction s as [|c s IH]; [done|]. simpl. intros Hs.
  destruct (inCutset c) eqn:Hc; [|done].
  apply IH. by apply (NFKC_white NFKC laws [] c s); [apply inCutset_isWhite|].
Qed.

Lemma TrimRight_normal s : NFKC s = s → NFKC (TrimRight s) = TrimRight s.
Proof.
  destruct (TrimRight_spec s) as (cut & Hs & Hcut & _). intros Hnormal.
  destruct cut as [|c cut]; [by rewrite app_nil_r in Hs; rewrite <-Hs|].
  rewrite Hs in Hnormal. apply Forall_cons in Hcut as [Hc _].
  by apply (NFKC_white NFKC laws) in Hnormal as [? _]; [|apply inCutset_isWhite].
Qed.

(** [reduceSpaces] keeps a text in normal form. *)
Lemma reduceSpaces_normal text :
  NFKC text = text → NFKC (reduceSpaces text) = reduceSpaces text.
Proof.
  intros Htext. unfold reduceSpaces, Trim.
  apply TrimRight_normal, TrimLeft_normal.
  by apply (proj1 (replaceRuns_normal text) []).
Qed.

End normalize_facts.

(** [normalize] is idempotent, for every normaliser that obeys the laws
    of NFKC stated in [NFKCLaws]. *)
Theorem normalize_idempotent (NFKC : gostring → gostring) (text : gostring) :
  NFKCLaws NFKC →
  normalize NFKC (normalize NFKC text) = normalize NFKC text.
Proof.
  intros laws. unfold normalize.
  rewrite (reduceSpaces_normal NFKC laws) by apply (NFKC_idem NFKC laws).
  apply reduceSpaces_idem.
Qed.

(** The laws hold of the identity, which is NFKC on ASCII text. *)
Lemma NFKCLaws_ascii : NFKCLaws (λ text, text).
Proof. by split. Qed.

Lemma normalize_idempotent_ascii :
  normalize (λ text, text) (normalize (λ text, text) (str "  two   words "))
  = normalize (λ text, text) (str "  two   words ").
Proof. apply normalize_idempotent. exact NFKCLaws_ascii. Defined.

(** What [normalize] leaves of white space: of the bytes tab, newline,
    form feed and carriage return none; of spaces no two in a row; and at
    neither end a space, tab, newline, carriage return, vertical tab or
    form feed. *)
Theorem normalize_collapsed_trimmed (NFKC : gostring → gostring) (text : gostring) :
  collapsed (normalize NFKC text) = true
  ∧ (∀ c, c ∈ normalize NFKC text → c ∉ [TAB; LF; FF; CR])
  ∧ trimmed isWhite (normalize NFKC text).
Proof.
  unfold normalize. pose proof (reduceSpaces_collapsed (NFKC text)) as Hcol.
  pose proof (reduceSpaces_trimmed (NFKC text)) as [Hhead Hlast].
  assert (∀ c, c ∈ reduceSpaces (NFKC text) → inCutset c = false → isWhite c = false)
    as Hwhite.
  { intros c Hin Hcut. destruct (isWhite c) eqn:Hw; [|done].
    apply isWhite_cases in Hw as [Hw|Hw]; [congruence|].
    by rewrite (collapsed_isSpace _ c Hcol Hin Hw) in Hcut. }
  split; [done|]. split; [|split].
  - intros c Hin Hc.
    assert (isSpace c = true) as Hsp.
    { unfold isSpace. apply bool_decide_eq_true.
      repeat (apply elem_of_cons in Hc as [->|Hc]; [set_solver|]).
      by apply elem_of_nil in Hc. }
    rewrite (collapsed_isSpace _ c Hcol Hin Hsp) in Hc.
    repeat (apply elem_of_cons in Hc as [Hc|Hc]; [discriminate Hc|]).
    by apply elem_of_nil in Hc.
  - intros c Hc. apply Hwhite; [|by apply Hhead].
    destruct (reduceSpaces (NFKC text)); [done|]. injection Hc as ->. apply list_elem_of_here.
  - intros c Hc. apply Hwhite; [|by apply Hlast].
    apply last_Some in Hc as [l' ->]. apply elem_of_app. right. apply list_elem_of_here.
Qed.

(** ** C6: [csv] on a table that is not rectangular *)

Section csv_facts.
Implicit Types (t rows : stringTable) (row : list gostring) (b : gostring).

Lemma csvRows_Ok w rows b :
  Forall (λ row, len row = w) rows →
  csvRows w rows b = Ok (b ++ concat (writeRecord <$> rows)).
Proof.
  intros Hrows. revert b. induction Hrows as [|row rows Hrow _ IH]; intros b; simpl.
  - by rewrite app_nil_r.
  - rewrite bool_decide_eq_false_2 by (by intros []).
    rewrite IH. by rewrite <-app_assoc.
Qed.

Lemma csvRows_Panic w rows b row :
  row ∈ rows → len row ≠ w → csvRows w rows b = Panic.
Proof.
  intros Hin Hlen. revert b.
  induction rows as [|row' rows IH]; intros b; [by apply elem_of_nil in Hin|].
  simpl. case_bool_decide as Hrow'; [done|].
  apply elem_of_cons in Hin as [->|Hin]; [by destruct Hrow'|by apply IH].
Qed.

Lemma csv_Ok t : rectangular t → csv t = Ok (concat (writeRecord <$> t)).
Proof.
  unfold rectangular, csv. intros Hrect.
  destruct (wh t) as [w h] eqn:Hwh. simpl in Hrect. by rewrite csvRows_Ok.
Qed.

Lemma csv_not_Err t e : csv t ≠ Err e.
Proof.
  unfold csv. destruct (wh t) as [w h]. generalize (@nil ascii).
  induction t as [|row rows IH]; intros b; simpl; [done|].
  case_bool_decide; [done|apply IH].
Qed.

Lemma csv_returns t out : csv t = Ok out → rectangular t.
Proof.
  intros Hcsv. apply Forall_forall. intros row Hin.
  destruct (decide (len row = (wh t).1)) as [|Hne]; [done|].
  unfold csv in Hcsv. destruct (wh t) as [w h]. simpl in Hne.
  by rewrite (csvRows_Panic _ _ _ _ Hin Hne) in Hcsv.
Qed.

End csv_facts.

(** C6.  For every table in which some row's length differs from the length
    of row 0 (the width [wh] reports), [csv] panics: it returns no text at
    all, so no malformed record is emitted. *)
Theorem csv_ragged_panics (t : stringTable) (row : list gostring) :
  row ∈ t → len row ≠ (wh t).1 → csv t = Panic.
Proof.
  intros Hin Hne. unfold csv. destruct (wh t) as [w h]. simpl in Hne.
  by apply (csvRows_Panic _ _ _ row).
Qed.

(** The scenario: width 3, second row of length 2. *)
Lemma csv_ragged_panics_scenario :
  (wh raggedTable).1 = 3 ∧ csv raggedTable = Panic.
Proof.
  split; [reflexivity|].
  apply (csv_ragged_panics raggedTable [str "d"; str "e"]).
  - apply list_elem_of_further, list_elem_of_here.
  - vm_compute. discriminate.
Defined.

(** ** C5: [csv] and reading it back *)

Section reader_facts.
Implicit Types (field acc cell : gostring) (record row : list gostring)
  (records t : stringTable) (rest : gostring).

Lemma read_unquoted_body acc cell record records rest :
  existsb csvSpecial cell = false →
  readCSV Unquoted acc record records (cell ++ rest)
  = readCSV Unquoted (acc ++ cell) record records rest.
Proof.
  revert acc. induction cell as [|c cell IH]; intros acc Hsp; simpl.
  - by rewrite app_nil_r.
  - simpl in Hsp. apply orb_false_iff in Hsp as [Hc Hsp].
    unfold csvSpecial in Hc.
    repeat (apply orb_false_iff in Hc as [Hc ?]).
    rewrite !decide_False by (by eapply bool_decide_eq_false_1).
    rewrite IH by done. by rewrite <-app_assoc.
Qed.

Lemma read_quoted_body acc cell record records rest :
  readCSV Quoted acc record records (escapeQuotes cell ++ rest)
  = readCSV Quoted (acc ++ cell) record records rest.
Proof.
  revert acc. induction cell as [|c cell IH]; intros acc; simpl.
  - by rewrite app_nil_r.
  - destruct (decide (c = dquote)) as [->|Hc]; simpl.
    + rewrite IH. by rewrite <-app_assoc.
    + rewrite decide_False by done. rewrite IH. by rewrite <-app_assoc.
Qed.

Lemma fieldNeedsQuotes_false cell :
  fieldNeedsQuotes cell = false → existsb csvSpecial cell = false.
Proof.
  unfold fieldNeedsQuotes. destruct cell as [|c cell]; [done|].
  case_decide; [done|]. by destruct (existsb csvSpecial (c :: cell)).
Qed.

(** Reading one written field up to the comma after it. *)
Lemma read_field_comma st acc cell record records rest :
  atStart st →
  readCSV st acc record records (writeField cell ++ comma :: rest)
  = readCSV FieldStart [] (record ++ [cell]) records rest.
Proof.
  intros Hst. unfold writeField.
  destruct (fieldNeedsQuotes cell) eqn:Hq.
  - replace (readCSV st acc record records ((dquote :: escapeQuotes cell ++ [dquote]) ++ comma :: rest))
      with (readCSV Quoted [] record records (escapeQuotes cell ++ dquote :: comma :: rest)).
    + rewrite read_quoted_body. done.
    + rewrite <-app_comm_cons, <-app_assoc. by destruct Hst as [-> | ->].
  - apply fieldNeedsQuotes_false in Hq. destruct cell as [|c cell].
    + by destruct Hst as [-> | ->].
    + simpl in Hq. apply orb_false_iff in Hq as [Hc Hq].
      unfold csvSpecial in Hc. repeat (apply orb_false_iff in Hc as [Hc ?]).
      replace (readCSV st acc record records ((c :: cell) ++ comma :: rest))
        with (readCSV Unquoted [c] record records (cell ++ comma :: rest)).
      * by rewrite read_unquoted_body.
      * destruct Hst as [-> | ->]; simpl;
          by rewrite !decide_False by (by eapply bool_decide_eq_false_1).
Qed.

(** Reading one written field up to the end of its line. *)
Lemma read_field_LF st acc cell record records rest :
  atStart st →
  readCSV st acc record records (writeField cell ++ LF :: rest)
  = readCSV RecordStart [] [] (records ++ [record ++ [cell]]) rest.
Proof.
  intros Hst. unfold writeField.
  destruct (fieldNeedsQuotes cell) eqn:Hq.
  - replace (readCSV st acc record records ((dquote :: escapeQuotes cell ++ [dquote]) ++ LF :: rest))
      with (readCSV Quoted [] record records (escapeQuotes cell ++ dquote :: LF :: rest)).
    + rewrite read_quoted_body. done.
    + rewrite <-app_comm_cons, <-app_assoc. by destruct Hst as [-> | ->].
  - apply fieldNeedsQuotes_false in Hq. destruct cell as [|c cell].
    + by destruct Hst as [-> | ->].
    + simpl in Hq. apply orb_false_iff in Hq as [Hc Hq].
      unfold csvSpecial in Hc. repeat (apply orb_false_iff in Hc as [Hc ?]).
      replace (readCSV st acc record records ((c :: cell) ++ LF :: rest))
        with (readCSV Unquoted [c] record records (cell ++ LF :: rest)).
      * by rewrite read_unquoted_body.
      * destruct Hst as [-> | ->]; simpl;
          by rewrite !decide_False by (by eapply bool_decide_eq_false_1).
Qed.

End reader_facts.

Section roundtrip.
Implicit Types (cell : gostring) (cells record row : list gostring)
  (records t : stringTable) (rest : gostring).

(** Reading the fields of one written record, from any of them on. *)
Lemma read_fields st acc cell cells record records rest n :
  atStart st →
  readCSV st acc record records (writeField cell ++ writeFields (S n) cells ++ LF :: rest)
  = readCSV RecordStart [] [] (records ++ [record ++ cell :: cells]) rest.
Proof.
  revert st acc cell record n.
  induction cells as [|next cells IH]; intros st acc cell record n Hst.
  - simpl. by apply read_field_LF.
  - simpl writeFields.
    rewrite <-app_comm_cons, <-app_assoc, read_field_comma by done.
    rewrite (IH FieldStart) by (by right).
    by rewrite <-app_assoc.
Qed.

Lemma read_record row records rest :
  row ≠ [] →
  readCSV RecordStart [] [] records (writeRecord row ++ rest)
  = readCSV RecordStart [] [] (records ++ [row]) rest.
Proof.
  destruct row as [|cell cells]; [done|]. intros _.
  unfold writeRecord. simpl writeFields. rewrite <-!app_assoc. simpl.
  by rewrite (read_fields RecordStart) by (by left).
Qed.

Lemma read_records t records :
  hasColumns t →
  readCSV RecordStart [] [] records (concat (writeRecord <$> t)) = Some (records ++ t).
Proof.
  intros Ht. revert records.
  induction Ht as [|row t Hrow _ IH]; intros records; simpl.
  - by rewrite app_nil_r.
  - rewrite read_record by done. rewrite IH. by rewrite <-app_assoc.
Qed.

End roundtrip.

(** C5 (as the code has it).  For every rectangular table in which every
    row has a cell, whatever bytes the cells hold, reading the text [csv]
    renders by the grammar the writer follows gives back the table, cell
    for cell. *)
Theorem csv_roundtrip (t : stringTable) :
  rectangular t → hasColumns t →
  ∃ text, csv t = Ok text ∧ parseCSV text = Some t.
Proof.
  intros Hrect Hcols. exists (concat (writeRecord <$> t)).
  split; [by apply csv_Ok|]. unfold parseCSV. by rewrite read_records.
Qed.

Lemma csv_roundtrip_tricky :
  ∃ text, csv trickyTable = Ok text ∧ parseCSV text = Some trickyTable.
Proof.
  apply csv_roundtrip.
  - unfold rectangular. repeat constructor.
  - unfold hasColumns. repeat constructor; discriminate.
Defined.

(** A row without cells and a row of one empty cell are both written as
    the empty line. *)
Lemma csv_empty_line :
  csv [[]] = Ok [LF] ∧ csv [[[]]] = Ok [LF].
Proof. split; reflexivity. Qed.

(** No reader of any kind gives back every rectangular table without null
    bytes from its [csv] text: the two tables above are such tables, they
    differ, and their texts are the same. *)
Lemma csv_roundtrip_fails :
  ¬ ∃ parse : gostring → option stringTable,
      ∀ t text, rectangular t → noNull t → csv t = Ok text → parse text = Some t.
Proof.
  intros [parse Hparse].
  assert (parse [LF] = Some [[]]) as H0.
  { apply Hparse; [repeat constructor..|reflexivity]. }
  assert (parse [LF] = Some [[[]]]) as H1.
  { apply Hparse; [repeat constructor| |reflexivity].
    repeat constructor. intros Hin. by apply elem_of_nil in Hin. }
  rewrite H0 in H1. discriminate H1.
Qed.

(** Both tables are tables [asStringTable] builds: from a one-row grid
    without columns, and from a grid of one empty cell. *)
Example asStringTable_empty_line :
  asStringTable (RT := amd64) (λ text, text) {| W := 0; H := 1; Cells := [[]] |} = Ok [[]]
  ∧ asStringTable (RT := amd64) (λ text, text) {| W := 1; H := 1; Cells := [[[]]] |} = Ok [[[]]].
Proof. split; reflexivity. Qed.

(** ** C8: the files [saveCSVFiles] writes *)

Section pageNumbers_facts.
Implicit Types (σ : heap) (r : docTables).



(** [pageNumbers] lists the keys of the map, all of them. *)
Lemma pageNumbers_keys σ r p :
  p ∈ pageNumbers σ r ↔ is_Some (readMap σ r !! p).
Proof.
  unfold pageNumbers. rewrite merge_sort_Permutation, list_elem_of_fmap. split.
  - intros [[p' ts] [-> Hin]]. apply elem_of_map_to_list in Hin. by exists ts.
  - intros [ts Hts]. exists (p, ts). split; [done|]. by apply elem_of_map_to_list.
Qed.

End pageNumbers_facts.

Section saveCSVFiles_facts.
Implicit Types (fs : fsys) (plan : list (gostring * stringTable)).

Lemma saveAll_app plan1 plan2 fs :
  saveAll (plan1 ++ plan2) fs = (saveAll plan1 ;; saveAll plan2) fs.
Proof.
  revert fs. induction plan1 as [|[path table] plan1 IH]; intros fs; [done|].
  simpl. go_unfold.
  destruct (csv table) as [contents|e|]; [|done..].
  destruct (WriteFile path contents fs) as [fs1 [[]|e|]]; simpl; [|done..].
  rewrite IH. done.
Qed.

Lemma saveTables_saveAll csvRoot pageNum i tables fs :
  saveTables csvRoot pageNum i tables fs
  = saveAll (imap (λ j table, (csvPath csvRoot pageNum (i + j), table)) tables) fs.
Proof.
  revert i fs. induction tables as [|table tables IH]; intros i fs; [done|].
  simpl. rewrite Nat.add_0_r. go_unfold.
  destruct (csv table) as [contents|e|]; [|done..].
  destruct (WriteFile _ contents fs) as [fs1 [[]|e|]]; simpl; [|done..].
  rewrite IH. f_equal. apply imap_ext. intros j t _. simpl.
  by rewrite Nat.add_succ_r.
Qed.

(** The two loops of [saveCSVFiles] write the planned files, in order. *)
Lemma savePages_saveAll M csvRoot pageNums fs :
  savePages M csvRoot pageNums fs = saveAll (plannedFiles M csvRoot pageNums) fs.
Proof.
  revert fs. induction pageNums as [|pageNum pageNums IH]; intros fs; [done|].
  unfold plannedFiles. simpl. rewrite saveAll_app.
  unfold mbind, Go_bind. rewrite saveTables_saveAll. simpl.
  destruct (saveAll _ fs) as [fs1 [[]|e|]]; [|done..]. apply IH.
Qed.


(** [saveAll] returns without error when every planned table is
    rectangular and no planned path is denied. *)
Lemma saveAll_Ok plan fs :
  Forall (λ pt, rectangular pt.2 ∧ pt.1 ∉ denied fs) plan →
  (saveAll plan fs).2 = Ok tt.
Proof.
  intros Hplan. revert fs Hplan.
  induction plan as [|[path table] plan IH]; intros fs Hplan; [done|].
  apply Forall_cons in Hplan as [[Hrect Hpath] Hplan]. simpl in *.
  go_unfold. rewrite (csv_Ok _ Hrect).
  unfold WriteFile. rewrite decide_False by done. simpl. by apply IH.
Qed.

End saveCSVFiles_facts.

Section csvPath_facts.
Implicit Types (a r : gostring) (n : Z).

Lemma str_String c (s : string) : str (String c s) = c :: str s.
Proof. done. Qed.








End csvPath_facts.


(** [saveCSVFiles] returns without error when every table of the set is
    rectangular and the disk denies none of the planned paths. *)
Lemma saveCSVFiles_Ok (σ : heap) (r : docTables) (csvRoot : gostring) (fs : fsys) :
  (∀ p tables, readMap σ r !! p = Some tables → Forall rectangular tables) →
  (∀ p i, csvPath csvRoot p i ∉ denied fs) →
  (saveCSVFiles σ r csvRoot fs).2 = Ok tt.
Proof.
  intros Hrect Hpaths. unfold saveCSVFiles. rewrite savePages_saveAll.
  apply saveAll_Ok. apply Forall_forall. intros [path table] Hin.
  unfold plannedFiles in Hin. apply list_elem_of_bind in Hin as (p & Hin & _).
  apply elem_of_lookup_imap in Hin as (i & t & [= -> ->] & Hi). simpl. split.
  - destruct (readMap σ r !! p) as [tables|] eqn:Hp; simpl in Hi; [|done].
    pose proof (Hrect p tables Hp) as HF.
    by apply (proj1 (Forall_lookup _ _) HF i).
  - apply Hpaths.
Qed.

(** The scenario, saved under the root [report] on an empty disk. *)
Example saveCSVFiles_scenario :
  saveCSVFiles scenarioHeap scenarioDoc (str "report") emptyDisk
  = (Fsys [(str "report.page2.table1.csv",
            str "x,x,x,x" ++ [LF] ++ str "x,x,x,x" ++ [LF] ++ str "x,x,x,x" ++ [LF]);
           (str "report.page2.table2.csv", str "y" ++ [LF])] ∅,
     Ok tt).
Proof. vm_compute. reflexivity. Qed.


(** ** C10: [extractDirectory(path, 1)] *)

Section Split_facts.
Implicit Types (s : gostring) (sep : ascii).

Lemma Split_nonempty s sep : Split s sep ≠ [].
Proof.
  induction s as [|c s IH]; simpl; [done|].
  case_decide; [done|]. by destruct (Split s sep).
Qed.

(** Without a separator the string is the one piece. *)
Lemma Split_none s sep : sep ∉ s → Split s sep = [s].
Proof.
  induction s as [|c s IH]; intros Hnot; simpl; [done|].
  apply not_elem_of_cons in Hnot as [Hne Hnot].
  rewrite decide_False by done. by rewrite IH.
Qed.

(** With a separator there are at least two pieces. *)
Lemma Split_some s sep : sep ∈ s → (2 ≤ length (Split s sep))%nat.
Proof.
  induction s as [|c s IH]; intros Hin; simpl; [by apply elem_of_nil in Hin|].
  case_decide as Hc.
  - pose proof (Split_nonempty s sep). simpl. destruct (Split s sep); [done|simpl; lia].
  - apply elem_of_cons in Hin as [->|Hin]; [done|].
    specialize (IH Hin). destruct (Split s sep); simpl in *; lia.
Qed.

Lemma index_0_Split s sep : ∃ piece, index (Split s sep) 0 = Ok piece.
Proof.
  pose proof (Split_nonempty s sep).
  destruct (Split s sep) as [|piece pieces]; [done|]. by exists piece.
Qed.

End Split_facts.

(** C10.  [extractDirectory(path, 1)] is partial.  A path has fewer than
    two segments between slashes exactly when it holds no slash; on every
    such path the call panics with an index out of range (it returns
    neither a token nor an error) and so does the driver's derivation of
    the output directory; on every path with a slash it returns a token. *)
Theorem extractDirectory_depth1_partial (path : gostring) :
  (len (Split path "/"%char) < 2 ↔ "/"%char ∉ path)
  ∧ ("/"%char ∉ path →
       extractDirectory path 1 = Panic ∧ ∀ CSVDir, csvSubDirOf CSVDir path = Panic)
  ∧ ("/"%char ∈ path → ∃ token, extractDirectory path 1 = Ok token).
Proof.
  split; [|split].
  - unfold len. split.
    + intros Hlen Hin. apply Split_some in Hin. lia.
    + intros Hnot. by rewrite Split_none.
  - intros Hnot.
    assert (extractDirectory path 1 = Panic) as HP.
    { unfold extractDirectory. by rewrite Split_none. }
    split; [done|]. intros CSVDir. unfold csvSubDirOf. by rewrite HP.
  - intros Hin. apply Split_some in Hin. unfold extractDirectory.
    destruct (Split path "/"%char) as [|p0 [|p1 parts]] eqn:HS; simpl in Hin; [lia..|].
    replace (len (p0 :: p1 :: parts) =? 0) with false by (unfold len; simpl; lia).
    replace (index (p0 :: p1 :: parts) 1) with (Ok p1).
    + apply index_0_Split.
    + unfold index, len. simpl.
      replace (1 >=? _) with false; [done|].
      symmetry. rewrite Z.geb_leb. apply Z.leb_gt. lia.
Qed.

(** A bare file name: no token, no error, a panic. *)
Lemma extractDirectory_bare_file_name :
  extractDirectory (str "June.pdf") 1 = Panic
  ∧ ∀ CSVDir, csvSubDirOf CSVDir (str "June.pdf") = Panic.
Proof.
  apply (proj1 (proj2 (extractDirectory_depth1_partial (str "June.pdf")))).
  vm_compute. intros Hin. by repeat (apply elem_of_cons in Hin as [?|Hin]; [done|]);
    apply elem_of_nil in Hin.
Defined.

(** A path as the driver gets them from [main]: under [PDF/]. *)
Example extractDirectory_under_PDF :
  extractDirectory (str "PDF/2024/June.pdf") 1 = Ok (str "2024")
  ∧ extractDirectory (str "PDF/2024/June.pdf") (-1) = Ok (str "June")
  ∧ csvSubDirOf (str "./outcsv") (str "PDF/2024/June.pdf") = Ok (str "./outcsv/2024/June").
Proof. by vm_compute. Qed.


(** * Further properties of the code *)

(** ** [filter]: composition and size *)

Section filter_further.
Implicit Types (σ : heap) (r : docTables) (M : pageMap) (tables : list stringTable).

Lemma filter_readMap_result σ σ' r r' width height :
  filter r width height σ = (σ', Ok r') →
  readMap σ' r' = omap (keptTables width height) (readMap σ r).
Proof.
  intros Hf. apply map_eq. intros p.
  by rewrite (filter_lookup _ _ _ _ _ _ _ Hf), lookup_omap.
Qed.

Lemma List_filter_filter {A} (f g : A → bool) (l : list A) :
  List.filter g (List.filter f l) = List.filter (λ x, f x && g x) l.
Proof.
  induction l as [|x l IH]; [done|]. simpl.
  destruct (f x) eqn:Hf; simpl; [|done]. destruct (g x); by rewrite IH.
Qed.

Lemma passes_max w1 h1 w2 h2 t :
  passes (Z.max w1 w2) (Z.max h1 h2) t = passes w1 h1 t && passes w2 h2 t.
Proof.
  unfold passes. apply eq_true_iff_eq.
  rewrite !andb_true_iff, !Z.geb_le. lia.
Qed.

Lemma keptTables_keptTables w1 h1 w2 h2 tables :
  keptTables w1 h1 tables ≫= keptTables w2 h2
  = keptTables (Z.max w1 w2) (Z.max h1 h2) tables.
Proof.
  assert (List.filter (passes (Z.max w1 w2) (Z.max h1 h2)) tables
          = List.filter (passes w2 h2) (List.filter (passes w1 h1) tables)) as Hmax.
  { rewrite List_filter_filter. apply filter_ext. intros t. apply passes_max. }
  unfold keptTables. simpl. rewrite Hmax.
  destruct (decide (List.filter (passes w1 h1) tables = [])) as [He|Hne]; simpl;
    [by rewrite He|done].
Qed.

(** The tables [filter] keeps have rows, so the result can be filtered
    again. *)
Lemma filter_result_noEmptyTable σ σ' r r' width height :
  filter r width height σ = (σ', Ok r') → noEmptyTable (readMap σ' r').
Proof.
  intros Hf p kept Hp. pose proof (filter_returns _ _ _ _ _ _ Hf) as Hne.
  rewrite (filter_lookup _ _ _ _ _ _ _ Hf) in Hp.
  destruct (readMap σ r !! p) as [tables|] eqn:Hts; [|done]. simpl in Hp.
  apply keptTables_Some in Hp as [-> _].
  specialize (Hne p tables Hts). rewrite Forall_forall in Hne.
  apply Forall_forall. intros t Hin. apply Hne.
  by apply list_elem_of_In, filter_In in Hin as [Hin%list_elem_of_In _].
Qed.

End filter_further.

(** Filtering a filtered set.  When [r.filter(w1, h1)] returns, filtering
    its result by [(w2, h2)] returns too, and holds what filtering [r] once
    by the larger width and the larger height holds. *)
Theorem filter_filter (σ σ1 : heap) (r r1 : docTables) (w1 h1 w2 h2 : Z) :
  filter r w1 h1 σ = (σ1, Ok r1) →
  ∃ σ2 r2 σ' r',
    filter r1 w2 h2 σ1 = (σ2, Ok r2)
    ∧ filter r (Z.max w1 w2) (Z.max h1 h2) σ = (σ', Ok r')
    ∧ readMap σ2 r2 = readMap σ' r'.
Proof.
  intros Hf1.
  pose proof (filter_result_noEmptyTable _ _ _ _ _ _ Hf1) as Hne1.
  pose proof (filter_returns _ _ _ _ _ _ Hf1) as Hne.
  eexists _, _, _, _. split; [by apply filter_Ok|]. split; [by apply filter_Ok|].
  rewrite (filter_readMap_result _ _ _ _ _ _ (filter_Ok _ _ w2 h2 Hne1)).
  rewrite (filter_readMap_result _ _ _ _ _ _ (filter_Ok _ _ (Z.max w1 w2) (Z.max h1 h2) Hne)).
  rewrite (filter_readMap_result _ _ _ _ _ _ Hf1).
  apply map_eq. intros p. rewrite !lookup_omap.
  destruct (readMap σ r !! p) as [tables|]; [|done]. simpl.
  apply keptTables_keptTables.
Qed.

Lemma filter_filter_scenario :
  ∃ σ2 r2 σ' r',
    filter (DocTables (Some 2%positive)) 1 3 (filter scenarioDoc 2 1 scenarioHeap).1
      = (σ2, Ok r2)
    ∧ filter scenarioDoc (Z.max 2 1) (Z.max 1 3) scenarioHeap = (σ', Ok r')
    ∧ readMap σ2 r2 = readMap σ' r'.
Proof.
  apply (filter_filter scenarioHeap _ scenarioDoc). vm_compute. reflexivity.
Defined.

Section sumTables_facts.
Implicit Types (M : pageMap) (tables : list stringTable).

Lemma len_nonneg {A} (l : list A) : 0 ≤ len l.
Proof. unfold len. lia. Qed.

Lemma numTables_sumTables (σ : heap) (r : docTables) :
  numTables σ r = sumTables (readMap σ r).
Proof. done. Qed.

Lemma sumTables_empty : sumTables ∅ = 0.
Proof. unfold sumTables. by rewrite map_to_list_empty. Qed.

Lemma sumTables_insert M (k : Z) tables :
  M !! k = None → sumTables (<[k := tables]> M) = len tables + sumTables M.
Proof.
  intros Hk. unfold sumTables. rewrite !foldl_len_sum, !Z.add_0_l.
  change (len tables + foldr (λ e s, len e.2 + s) 0 (map_to_list M))
    with (foldr (λ (e : Z * list stringTable) s, len e.2 + s) 0 ((k, tables) :: map_to_list M)).
  apply (foldr_permutation (=) (λ (e : Z * list stringTable) s, len e.2 + s) 0).
  - intros j1 e1 j2 e2 s _ _ _. lia.
  - by apply map_to_list_insert.
Qed.

Lemma sumTables_nonneg M : 0 ≤ sumTables M.
Proof.
  induction M as [|k tables M Hk IH] using map_ind.
  - by rewrite sumTables_empty.
  - rewrite sumTables_insert by done. pose proof (len_nonneg tables). lia.
Qed.

(** Dropping tables page by page does not raise the sum. *)
Lemma sumTables_omap_le (f : list stringTable → option (list stringTable)) M :
  (∀ tables kept, f tables = Some kept → len kept ≤ len tables) →
  sumTables (omap f M) ≤ sumTables M.
Proof.
  intros Hf. induction M as [|k tables M Hk IH] using map_ind.
  - by rewrite omap_empty.
  - rewrite sumTables_insert by done. pose proof (len_nonneg tables).
    destruct (f tables) as [kept|] eqn:Hkept.
    + rewrite (omap_insert_Some _ _ _ _ kept) by done.
      rewrite sumTables_insert by (by rewrite lookup_omap, Hk).
      specialize (Hf _ _ Hkept). lia.
    + rewrite omap_insert_None by done.
      rewrite delete_id by (by rewrite lookup_omap, Hk). lia.
Qed.

(** Dropping only the pages without tables keeps the sum. *)
Lemma sumTables_omap_eq (f : list stringTable → option (list stringTable)) M :
  (∀ p tables, M !! p = Some tables →
     f tables = Some tables ∨ (f tables = None ∧ tables = [])) →
  sumTables (omap f M) = sumTables M.
Proof.
  induction M as [|k tables M Hk IH] using map_ind; intros Hf.
  - by rewrite omap_empty.
  - rewrite sumTables_insert by done.
    assert (sumTables (omap f M) = sumTables M) as IH'.
    { apply IH. intros p ts Hp. apply (Hf p).
      rewrite lookup_insert_ne; [done|]. intros ->. by rewrite Hk in Hp. }
    destruct (Hf k tables) as [Hkept|[Hnone ->]]; [apply lookup_insert_eq|..].
    + rewrite (omap_insert_Some _ _ _ _ tables) by done.
      rewrite sumTables_insert by (by rewrite lookup_omap, Hk). lia.
    + rewrite omap_insert_None by done.
      rewrite delete_id by (by rewrite lookup_omap, Hk). unfold len. simpl. lia.
Qed.

Lemma List_filter_length {A} (f : A → bool) (l : list A) :
  len (List.filter f l) ≤ len l.
Proof.
  unfold len. induction l as [|x l IH]; simpl; [done|].
  destruct (f x); simpl; lia.
Qed.

(** With a minimum width of 0 or less and a minimum height of 1 or less,
    every table that has a row passes. *)
Lemma keptTables_all width height tables :
  width ≤ 0 → height ≤ 1 → Forall (λ t, t ≠ []) tables →
  List.filter (passes width height) tables = tables.
Proof.
  intros Hw Hh. induction 1 as [|t tables Ht _ IH]; [done|]. simpl.
  replace (passes width height t) with true; [by rewrite IH|].
  symmetry. apply passes_spec. destruct t as [|row0 rows]; [done|].
  simpl. pose proof (len_nonneg row0). pose proof (len_nonneg rows).
  unfold len in *. simpl. lia.
Qed.

End sumTables_facts.

(** [filter] only takes away.  When it returns, the pages of the result
    are pages of the receiver and there are no more tables than before.
    With a minimum width of 0 or less and a minimum height of 1 or less (the
    driver's defaults are 0 and 0) it keeps every table: the pages with
    tables stay as they are, the pages without are dropped. *)
Theorem filter_shrinks (σ σ' : heap) (r r' : docTables) (width height : Z) :
  filter r width height σ = (σ', Ok r') →
  dom (readMap σ' r') ⊆ dom (readMap σ r)
  ∧ numTables σ' r' ≤ numTables σ r
  ∧ (width ≤ 0 → height ≤ 1 →
     numTables σ' r' = numTables σ r
     ∧ ∀ p tables, readMap σ r !! p = Some tables →
         readMap σ' r' !! p = if decide (tables = []) then None else Some tables).
Proof.
  intros Hf. pose proof (filter_returns _ _ _ _ _ _ Hf) as Hne.
  rewrite !numTables_sumTables, (filter_readMap_result _ _ _ _ _ _ Hf).
  split; [apply dom_omap_subseteq|]. split.
  - apply sumTables_omap_le. intros tables kept [-> _]%keptTables_Some.
    apply List_filter_length.
  - intros Hw Hh.
    assert (∀ p tables, readMap σ r !! p = Some tables →
              keptTables width height tables
              = if decide (tables = []) then None else Some tables) as Hkept.
    { intros p tables Hp. unfold keptTables. simpl.
      by rewrite keptTables_all by (by try apply (Hne p)). }
    split.
    + apply sumTables_omap_eq. intros p tables Hp. rewrite (Hkept p tables Hp).
      destruct (decide (tables = [])); [by right|by left].
    + intros p tables Hp. rewrite lookup_omap, Hp. simpl. by apply (Hkept p).
Qed.

Lemma filter_shrinks_scenario :
  dom (readMap (filter scenarioDoc 0 0 scenarioHeap).1 (DocTables (Some 2%positive)))
    ⊆ dom (readMap scenarioHeap scenarioDoc)
  ∧ numTables (filter scenarioDoc 0 0 scenarioHeap).1 (DocTables (Some 2%positive))
    = numTables scenarioHeap scenarioDoc.
Proof.
  assert (filter scenarioDoc 0 0 scenarioHeap
          = ((filter scenarioDoc 0 0 scenarioHeap).1, Ok (DocTables (Some 2%positive)))) as Hf.
  { vm_compute. reflexivity. }
  destruct (filter_shrinks _ _ _ _ 0 0 Hf) as (Hdom & _ & Hall).
  split; [exact Hdom|]. apply Hall; done.
Defined.

(** ** [asStringTable]: what it builds and when it panics *)

Section asStringTable_facts.
Context {RT : Runtime}.
Implicit Types (row built : list gostring) (rows cells : stringTable).

(** The inner loop on a row under construction: [built] is filled in,
    [k] empty cells follow. *)
Lemma fillRow_spec built (k : nat) row :
  fillRow (built ++ replicate k []) (length built) row
  = if decide (length row ≤ k)%nat
    then Ok (built ++ row ++ replicate (k - length row) [])
    else Panic.
Proof.
  revert built k. induction row as [|cell row IH]; intros built k; cbn [fillRow length].
  - case_decide; [|lia]. by rewrite Nat.sub_0_r.
  - unfold assign. rewrite length_app, length_replicate.
    destruct k as [|k].
    + case_decide; [lia|]. unfold mbind, result_bind. case_decide; [lia|done].
    + case_decide; [|lia]. unfold mbind, result_bind.
      rewrite insert_app_r_alt, Nat.sub_diag by done. cbn [replicate insert list_insert].
      replace (built ++ cell :: replicate k []) with ((built ++ [cell]) ++ replicate k [])
        by (by rewrite <-app_assoc).
      replace (S (length built)) with (length (built ++ [cell]))
        by (rewrite length_app; simpl; lia).
      rewrite IH. repeat case_decide; try lia; [|done].
      rewrite <-app_assoc. done.
Qed.

(** The outer loop on a table under construction: the rows [built] are
    built, [k] empty rows follow. *)
Lemma fillRows_spec (w : Z) (built : stringTable) (k : nat) rows :
  fillRows w (built ++ replicate k []) (length built) rows
  = if decide ((length rows ≤ k)%nat ∧ Forall (λ row, len row ≤ w) rows
               ∧ (rows ≠ [] → allocates 2 w = true))
    then Ok (built ++ (padRow w <$> rows) ++ replicate (k - length rows) [])
    else Panic.
Proof.
  revert built k. induction rows as [|row rows IH]; intros built k;
    cbn [fillRows length fmap list_fmap].
  - destruct (decide _) as [Hd|Hd]; [by rewrite Nat.sub_0_r|].
    destruct Hd. split; [lia|]. split; [constructor|done].
  - assert (make 2 ([] : gostring) w
            = if decide (0 ≤ w ∧ allocates 2 w = true)
              then Ok (replicate (Z.to_nat w) []) else Panic) as ->.
    { clear IH. unfold make.
      destruct (decide (0 ≤ w ∧ allocates 2 w = true)) as [[Hw Ha]|Hno].
      - rewrite Ha. by replace (w <? 0) with false by lia.
      - destruct (Z.ltb_spec w 0) as [Hw|Hw]; [done|].
        destruct (allocates 2 w) eqn:Ha; [|done]. destruct Hno. by split. }
    destruct (decide (0 ≤ w ∧ allocates 2 w = true)) as [[Hw Halloc]|Hno];
      unfold mbind, result_bind.
    2: { rewrite decide_False; [done|]. intros (_ & Hall & Ha). apply Hno.
         apply Forall_cons in Hall as [Hrow _]. pose proof (len_nonneg row).
         split; [lia|by apply Ha]. }
    unfold assign at 1. rewrite length_app, length_replicate.
    destruct (decide (length built < length built + k)%nat) as [Hk|Hk].
    2: { rewrite decide_False; [done|]. intros [? _]. simpl in *. lia. }
    destruct k as [|k]; [lia|]. clear Hk.
    pose proof (fillRow_spec [] (Z.to_nat w) row) as Hrow.
    cbn [app length] in Hrow. rewrite Hrow. clear Hrow.
    destruct (decide (length row ≤ Z.to_nat w)%nat) as [Hlen|Hlen]; unfold mbind, result_bind.
    + unfold assign. rewrite length_app. cbn [length]. rewrite length_replicate.
      destruct (decide (length built < length built + S k)%nat) as [_|?]; [|lia].
      unfold mbind, result_bind.
      rewrite insert_app_r_alt, Nat.sub_diag by done. cbn [replicate insert list_insert].
      change (row ++ replicate (Z.to_nat w - length row) []) with (padRow w row).
      replace (built ++ padRow w row :: replicate k [])
        with ((built ++ [padRow w row]) ++ replicate k [])
        by (by rewrite <-app_assoc).
      replace (S (length built)) with (length (built ++ [padRow w row]))
        by (rewrite length_app; simpl; lia).
      rewrite IH.
      destruct (decide ((length rows ≤ k)%nat ∧ Forall (λ row, len row ≤ w) rows
                        ∧ (rows ≠ [] → allocates 2 w = true)))
        as [(Hk & Hall & _)|Hno].
      * rewrite decide_True; [by rewrite <-app_assoc|].
        split; [lia|]. split; [|done]. constructor; [unfold len; lia|done].
      * rewrite decide_False; [done|]. intros (Hk & Hall & _).
        apply Forall_cons in Hall as [_ Hall]. apply Hno. split; [lia|]. by split.
    + rewrite decide_False; [done|]. intros (_ & Hall & _).
      apply Forall_cons in Hall as [Hrow _]. unfold len in Hrow. lia.
Qed.

Lemma gridFits_dec (table : TextTable) : Decision (gridFits table).
Proof. unfold gridFits. apply _. Qed.

Lemma slicesAllocate_dec (table : TextTable) : Decision (slicesAllocate table).
Proof. unfold slicesAllocate. apply _. Qed.

Lemma asStringTable_Ok (NFKC : gostring → gostring) (table : TextTable) :
  gridFits table → slicesAllocate table →
  asStringTable NFKC table
  = Ok (normalizeTable NFKC
          ((padRow (W table) <$> Cells table)
             ++ replicate (Z.to_nat (H table) - length (Cells table)) [])).
Proof.
  unfold asStringTable, gridFits, slicesAllocate, make.
  pose proof (fillRows_spec (W table) [] (Z.to_nat (H table)) (Cells table)) as Hrows.
  simpl in Hrows.
  intros (HH & Hlen & Hall) [HallocH HallocW].
  replace (H table <? 0) with false by lia. rewrite HallocH. simpl.
  rewrite Hrows. rewrite decide_True; [done|]. split; [unfold len in Hlen; lia|done].
Qed.

Lemma asStringTable_Panic (NFKC : gostring → gostring) (table : TextTable) :
  ¬ (gridFits table ∧ slicesAllocate table) → asStringTable NFKC table = Panic.
Proof.
  unfold asStringTable, gridFits, slicesAllocate, make.
  pose proof (fillRows_spec (W table) [] (Z.to_nat (H table)) (Cells table)) as Hrows.
  simpl in Hrows.
  intros Hno. destruct (H table <? 0) eqn:HH; [done|].
  destruct (allocates 3 (H table)) eqn:HallocH; [|done]. simpl.
  rewrite Hrows. rewrite decide_False; [done|]. intros (Hlen & Hall & HallocW).
  apply Hno. split; [|done]. split; [lia|]. split; [unfold len; lia|done].
Qed.

(** What [asStringTable] returns, when it returns. *)
Lemma asStringTable_returns (NFKC : gostring → gostring) (table : TextTable)
    (t : stringTable) :
  asStringTable NFKC table = Ok t →
  gridFits table
  ∧ t = normalizeTable NFKC
          ((padRow (W table) <$> Cells table)
             ++ replicate (Z.to_nat (H table) - length (Cells table)) []).
Proof.
  intros Hbuilt.
  destruct (gridFits_dec table) as [Hfits|Hno];
    [|rewrite asStringTable_Panic in Hbuilt; [done|by intros [? _]]].
  destruct (slicesAllocate_dec table) as [Halloc|Hno];
    [|rewrite asStringTable_Panic in Hbuilt; [done|by intros [_ ?]]].
  rewrite (asStringTable_Ok NFKC table Hfits Halloc) in Hbuilt.
  split; [done|]. by injection Hbuilt.
Qed.

End asStringTable_facts.

(** What [asStringTable] builds.  It returns exactly when the grid fits
    the declared size and the run time allocates the slices (otherwise
    [make] or an index panics); the table it returns has [H] rows: the rows
    of the grid, each filled up to [W] cells, every cell normalised, and
    after them the rows the grid lacks, which have no cell at all. *)
Theorem asStringTable_spec {RT : Runtime} (NFKC : gostring → gostring)
    (table : TextTable) :
  (gridFits table → slicesAllocate table →
   asStringTable NFKC table
   = Ok (normalizeTable NFKC
           ((padRow (W table) <$> Cells table)
              ++ replicate (Z.to_nat (H table) - length (Cells table)) [])))
  ∧ (¬ (gridFits table ∧ slicesAllocate table) → asStringTable NFKC table = Panic).
Proof. split; [apply asStringTable_Ok|apply asStringTable_Panic]. Qed.

(** A grid of one row for a table of height 2; and a table of [1 << 62]
    rows, which fits its declared size and is not allocated. *)
Lemma asStringTable_spec_short_grid :
  gridFits {| W := 2; H := 2; Cells := [[str " a  b "]] |}
  ∧ asStringTable (RT := amd64) (λ text, text)
      {| W := 2; H := 2; Cells := [[str " a  b "]] |}
    = Ok [[str "a b"; []]; []]
  ∧ gridFits {| W := 0; H := 2 ^ 62; Cells := [] |}
  ∧ asStringTable (RT := amd64) (λ text, text) {| W := 0; H := 2 ^ 62; Cells := [] |}
    = Panic.
Proof.
  assert (gridFits {| W := 2; H := 2; Cells := [[str " a  b "]] |}) as Hfits.
  { unfold gridFits. simpl. repeat split; [done..|]. repeat constructor. done. }
  split; [exact Hfits|]. split.
  { apply (proj1 (asStringTable_spec (RT := amd64) (λ text, text) _) Hfits).
    split; [reflexivity|]. intros _. reflexivity. }
  split.
  { unfold gridFits. simpl. split; [done|]. split; [done|constructor]. }
  apply (proj2 (asStringTable_spec (RT := amd64) (λ text, text) _)).
  intros [_ [Halloc _]]. vm_compute in Halloc. discriminate Halloc.
Defined.

(** ** [csv]: when it returns *)

Lemma csv_Panic_iff (t : stringTable) : csv t = Panic ↔ ¬ rectangular t.
Proof.
  split.
  - intros HP Hrect. by rewrite (csv_Ok _ Hrect) in HP.
  - intros Hno. destruct (csv t) as [text|e|] eqn:Hcsv; [|by apply csv_not_Err in Hcsv|done].
    by apply csv_returns in Hcsv.
Qed.

(** [csv] returns exactly on the rectangular tables, and then the records
    of the rows one after the other; on every other table it panics; it
    never returns an error. *)
Theorem csv_returns_iff (t : stringTable) :
  (rectangular t ↔ csv t = Ok (concat (writeRecord <$> t)))
  ∧ (¬ rectangular t ↔ csv t = Panic)
  ∧ (∀ text, csv t = Ok text → text = concat (writeRecord <$> t)).
Proof.
  assert (rectangular t → csv t = Ok (concat (writeRecord <$> t))) as HOk
    by apply csv_Ok.
  split; [|split].
  - split; [done|]. apply csv_returns.
  - split.
    + intros Hno. destruct (csv t) as [text|e|] eqn:Hcsv; [|by apply csv_not_Err in Hcsv|done].
      by apply csv_returns in Hcsv.
    + intros HP Hrect. by rewrite (HOk Hrect) in HP.
  - intros text Hcsv. pose proof (csv_returns _ _ Hcsv) as Hrect.
    rewrite (HOk Hrect) in Hcsv. by injection Hcsv.
Qed.

(** ** [asStringTable] and [csv] together *)

Section asStringTable_csv_facts.
Variable NFKC : gostring → gostring.
Implicit Types (row : list gostring) (rows t : stringTable).

Lemma normalizeTable_app rows1 rows2 :
  normalizeTable NFKC (rows1 ++ rows2)
  = normalizeTable NFKC rows1 ++ normalizeTable NFKC rows2.
Proof. unfold normalizeTable. apply fmap_app. Qed.

Lemma normalizeTable_empty_rows (m : nat) :
  normalizeTable NFKC (replicate m []) = replicate m [].
Proof. unfold normalizeTable. by rewrite fmap_replicate. Qed.

(** [normalizeTable] keeps the shape of the table. *)
Lemma normalizeTable_lengths t :
  length <$> normalizeTable NFKC t = length <$> t.
Proof.
  unfold normalizeTable. rewrite <-list_fmap_compose. apply list_fmap_ext.
  intros _ row _. simpl. apply length_fmap.
Qed.

Lemma padRow_length (w : Z) row : len row ≤ w → len (padRow w row) = w.
Proof.
  unfold padRow, len. rewrite length_app, length_replicate. lia.
Qed.

End asStringTable_csv_facts.

(** [wh] and [rectangular] look at the lengths of the rows only. *)
Lemma wh_lengths (t t' : stringTable) :
  length <$> t = length <$> t' → wh t = wh t'.
Proof.
  intros Hl. assert (length t = length t') as Hlen.
  { by rewrite <-(length_fmap length t), Hl, length_fmap. }
  destruct t as [|row0 rows], t' as [|row0' rows']; try done.
  injection Hl as Hrow0 _. unfold wh, len. by rewrite Hrow0, Hlen.
Qed.

Lemma rectangular_lengths (t t' : stringTable) :
  length <$> t = length <$> t' → rectangular t → rectangular t'.
Proof.
  unfold rectangular. intros Hl. rewrite <-(wh_lengths _ _ Hl).
  generalize (wh t).1. intros w. clear -Hl. revert t' Hl.
  induction t as [|row rows IH]; intros [|row' rows'] Hl Hall; try done.
  injection Hl as Hrow Hl. apply Forall_cons in Hall as [Hw Hall].
  constructor; [unfold len in *; lia|by apply IH].
Qed.

(** The tables [asStringTable] builds and [csv].  A grid with as many rows
    as the declared height gives a rectangular table, of the declared size,
    and [csv] returns on it.  A grid with some rows but fewer than the
    height, and a width above 0, gives a table on which [csv] panics: the
    rows that lack have no cells.  There is no other case of a panic. *)
Theorem asStringTable_csv {RT : Runtime} (NFKC : gostring → gostring) (table : TextTable)
    (t : stringTable) :
  asStringTable NFKC table = Ok t →
  len t = H table
  ∧ (csv t = Panic ↔ 0 < len (Cells table) < H table ∧ 0 < W table)
  ∧ (len (Cells table) = H table → 0 < H table → wh t = (W table, H table)).
Proof.
  intros Hbuilt. apply asStringTable_returns in Hbuilt as [(HH & Hlen & Hall) ->].
  set (padded := (padRow (W table) <$> Cells table)
                   ++ replicate (Z.to_nat (H table) - length (Cells table)) []).
  assert (length <$> padded
          = replicate (length (Cells table)) (Z.to_nat (W table))
              ++ replicate (Z.to_nat (H table) - length (Cells table)) 0%nat) as Hshape.
  { unfold padded. rewrite fmap_app, fmap_replicate. f_equal.
    clear -Hall. induction Hall as [|row rows Hrow _ IH]; [done|].
    rewrite !fmap_cons. cbn [length replicate]. rewrite IH. f_equal.
    apply padRow_length in Hrow. unfold len in Hrow. lia. }
  assert (len (normalizeTable NFKC padded) = H table) as Hheight.
  { unfold len. rewrite <-(length_fmap length), normalizeTable_lengths, Hshape.
    rewrite length_app, !length_replicate. unfold len in Hlen. lia. }
  split; [done|].
  assert (rectangular (normalizeTable NFKC padded)
          ↔ ¬ (0 < len (Cells table) < H table ∧ 0 < W table)) as Hrect.
  { split.
    - intros Hr. apply (rectangular_lengths _ padded) in Hr;
        [|apply normalizeTable_lengths].
      intros [[Hpos Hlt] Hw]. unfold rectangular in Hr.
      assert ((wh padded).1 = W table) as Hwidth.
      { unfold padded. destruct (Cells table) as [|row rows]; [done|].
        apply Forall_cons in Hall as [Hrow _]. simpl.
        by apply padRow_length. }
      rewrite Hwidth in Hr. unfold padded in Hr. apply Forall_app in Hr as [_ Hr].
      unfold len in Hlen, Hlt.
      destruct (Z.to_nat (H table) - length (Cells table))%nat eqn:Hm; [lia|].
      simpl in Hr. apply Forall_cons in Hr as [Hr _]. unfold len in Hr. simpl in Hr. lia.
    - intros Hno. apply (rectangular_lengths padded); [by rewrite normalizeTable_lengths|].
      unfold rectangular, padded. destruct (Cells table) as [|row rows] eqn:HC.
      + simpl. apply Forall_forall. intros r Hr%elem_of_replicate. destruct Hr as [-> _].
        by destruct (Z.to_nat (H table) - 0)%nat.
      + apply Forall_cons in Hall as [Hrow Hall]. simpl.
        rewrite (padRow_length _ _ Hrow). constructor; [by apply padRow_length|].
        apply Forall_app. split.
        * apply Forall_fmap. eapply Forall_impl; [exact Hall|].
          intros r Hr. by apply padRow_length.
        * apply Forall_forall. intros r Hr%elem_of_replicate. destruct Hr as [-> Hm].
          unfold len in *. simpl in *.
          assert (W table = 0 ∨ 0 < W table) as [->|Hw] by lia; [done|].
          destruct Hno. lia. }
  split.
  - rewrite csv_Panic_iff, Hrect.
    split; [|by intros ? ?]. intros Hnn.
    destruct (decide (0 < len (Cells table) < H table ∧ 0 < W table)); [done|].
    by destruct Hnn.
  - intros Hfull Hpos. rewrite (wh_lengths _ padded) by apply normalizeTable_lengths.
    unfold padded. destruct (Cells table) as [|row rows] eqn:HC.
    + unfold len in Hfull. simpl in Hfull. lia.
    + apply Forall_cons in Hall as [Hrow _]. simpl. f_equal.
      * by apply padRow_length.
      * unfold len in *. simpl in *. rewrite length_app, length_fmap, length_replicate. lia.
Qed.

Lemma asStringTable_csv_short_grid :
  asStringTable (RT := amd64) (λ text, text) {| W := 2; H := 2; Cells := [[str "a"]] |}
    = Ok [[str "a"; []]; []]
  ∧ csv [[str "a"; []]; []] = Panic.
Proof.
  assert (asStringTable (RT := amd64) (λ text, text) {| W := 2; H := 2; Cells := [[str "a"]] |}
          = Ok [[str "a"; []]; []]) as Hbuilt by (vm_compute; reflexivity).
  split; [exact Hbuilt|].
  apply (proj1 (proj2 (asStringTable_csv (RT := amd64) _ _ _ Hbuilt))). vm_compute. done.
Defined.

(** ** [extractTables]: the pages of the result, and failure *)

Lemma StronglySorted_seqZ (m n : Z) : StronglySorted Z.le (seqZ m n).
Proof.
  remember (Z.to_nat n) as k eqn:Hk. revert m n Hk.
  induction k as [|k IH]; intros m n Hk.
  - rewrite seqZ_nil by lia. constructor.
  - rewrite seqZ_cons by lia. constructor; [apply IH; lia|].
    apply Forall_forall. intros x Hx%elem_of_seqZ. lia.
Qed.

Section extractTables_further.
Context {RT : Runtime}.
Variable NFKC : gostring → gostring.
Variable File : Type.
Variable Open : gostring → result File.
Variable NewPdfReaderLazy : File → result PdfReader.
Implicit Types (σ : heap) (pdfReader : PdfReader) (pageNums : list Z).

(** The loop returns when every page it visits is extracted. *)
Lemma extractPages_total pdfReader (m : loc) pageNums σ (M0 : pageMap) :
  σ !! m = Some M0 →
  Forall (λ p, ∃ tables, extractPageTables NFKC pdfReader p = Ok tables) pageNums →
  ∃ σ', extractPages NFKC pdfReader (DocTables (Some m)) pageNums σ = (σ', Ok tt).
Proof.
  intros Hm Hall. revert σ M0 Hm.
  induction Hall as [|p pageNums [tables Hp] _ IH]; intros σ M0 Hm.
  - by exists σ.
  - simpl. go_unfold. rewrite Hp. simpl. unfold mapAssign. simpl. rewrite Hm.
    apply (IH _ (<[p := tables]> M0)). apply lookup_insert_eq.
Qed.

(** The loop stops at the first page whose extraction fails, with the
    error of that page. *)
Lemma extractPages_Err pdfReader (m : loc) before p after σ (M0 : pageMap) e :
  σ !! m = Some M0 →
  Forall (λ q, ∃ tables, extractPageTables NFKC pdfReader q = Ok tables) before →
  extractPageTables NFKC pdfReader p = Err e →
  (extractPages NFKC pdfReader (DocTables (Some m)) (before ++ p :: after) σ).2
  = Err (ErrorfW "extractPageTables failed. inPath=%q pageNum=%d err=%w" e).
Proof.
  intros Hm Hall Hp. revert σ M0 Hm.
  induction Hall as [|q before [tables Hq] _ IH]; intros σ M0 Hm.
  - simpl. go_unfold. by rewrite Hp.
  - simpl. go_unfold. rewrite Hq. simpl. unfold mapAssign. simpl. rewrite Hm.
    apply (IH _ (<[q := tables]> M0)). apply lookup_insert_eq.
Qed.

End extractTables_further.

(** The pages of an extracted set.  When [extractTables] returns a set, its
    page numbers are the clamped range [max(firstPage, 1) ..
    min(lastPage, numPages)], every one of them, in order; a range that lies
    outside the document gives the empty set, without an error, and
    [describe] of it is the newline.  [extractTables] does return a set when
    the document opens and every page of the clamped range is extracted. *)
Theorem extractTables_pages {RT : Runtime}
    (NFKC : gostring → gostring) (File : Type) (Open : gostring → result File)
    (NewPdfReaderLazy : File → result PdfReader) (Quote : gostring → gostring)
    (inPath : gostring) (firstPage lastPage : Z) (σ : heap) :
  (∀ f pdfReader numPages,
     Open inPath = Ok f → NewPdfReaderLazy f = Ok pdfReader →
     GetNumPages pdfReader = Ok numPages →
     (∀ p, clampFirst firstPage ≤ p ≤ clampLast lastPage numPages →
           ∃ tables, extractPageTables NFKC pdfReader p = Ok tables) →
     ∃ σ' d, extractTables NFKC File Open NewPdfReaderLazy inPath firstPage lastPage σ
             = (σ', Ok d))
  ∧ (∀ σ' d,
       extractTables NFKC File Open NewPdfReaderLazy inPath firstPage lastPage σ
         = (σ', Ok d) →
       ∃ f pdfReader numPages,
         Open inPath = Ok f ∧ NewPdfReaderLazy f = Ok pdfReader
         ∧ GetNumPages pdfReader = Ok numPages
         ∧ pageNumbers σ' d
           = seqZ (clampFirst firstPage)
               (clampLast lastPage numPages - clampFirst firstPage + 1)
         ∧ (clampLast lastPage numPages < clampFirst firstPage →
            readMap σ' d = ∅ ∧ ∀ level, describe Quote σ' d level = nl)).
Proof.
  split.
  - intros f pdfReader numPages Hf Hr Hn Hpages.
    unfold extractTables. go_unfold. rewrite Hf. simpl. rewrite Hr. simpl.
    rewrite Hn. simpl. unfold makeMap. simpl.
    destruct (extractPages_total NFKC pdfReader (fresh (dom σ))
                (seqZ (clampFirst firstPage)
                   (clampLast lastPage numPages - clampFirst firstPage + 1))
                (<[fresh (dom σ) := ∅]> σ) ∅) as [σ' Hloop].
    + apply lookup_insert_eq.
    + apply Forall_forall. intros p Hp%elem_of_seqZ. apply Hpages. lia.
    + rewrite Hloop. by eexists _, _.
  - intros σ' d Hrun.
    apply extractTables_Ok in Hrun as (f & pdfReader & numPages & Hf & Hr & Hn & Hp).
    exists f, pdfReader, numPages. do 3 (split; [done|]).
    assert (∀ p, p ∈ pageNumbers σ' d
                 ↔ p ∈ seqZ (clampFirst firstPage)
                         (clampLast lastPage numPages - clampFirst firstPage + 1))
      as Hsame.
    { intros p. rewrite pageNumbers_keys, elem_of_seqZ. specialize (Hp p).
      case_decide as Hrange.
      - destruct Hp as (tables & _ & ->). split; [lia|by eexists].
      - rewrite Hp. split; [by intros [? ?]|lia]. }
    split.
    + apply (Sorted_unique Z.le).
      * unfold pageNumbers. apply Sorted_merge_sort, _.
      * apply StronglySorted_Sorted, StronglySorted_seqZ.
      * apply NoDup_Permutation; [|apply NoDup_seqZ|done].
        unfold pageNumbers. rewrite merge_sort_Permutation.
        apply NoDup_fst_map_to_list.
    + intros Hempty.
      assert (readMap σ' d = ∅) as HM.
      { apply map_eq. intros p. rewrite lookup_empty. specialize (Hp p).
        by rewrite decide_False in Hp by lia. }
      split; [done|]. intros level. unfold describe, numTables. rewrite HM.
      rewrite map_to_list_empty. simpl. by rewrite orb_true_r.
Qed.

Lemma extractTables_pages_blank :
  pageNumbers
    (extractTables (RT := amd64) (λ text, text) unit (λ _, Ok ()) (λ _, Ok blankPdf)
       (str "PDF/2024/June.pdf") (-1) 10000 ∅).1 (DocTables (Some 1%positive))
  = [1].
Proof.
  destruct (proj2 (extractTables_pages (RT := amd64) (λ text, text) unit (λ _, Ok ()) (λ _, Ok blankPdf)
                     (λ cell, cell) (str "PDF/2024/June.pdf") (-1) 10000 ∅)
              (extractTables (RT := amd64) (λ text, text) unit (λ _, Ok ()) (λ _, Ok blankPdf)
                 (str "PDF/2024/June.pdf") (-1) 10000 ∅).1
              (DocTables (Some 1%positive)))
    as (f & pdfReader & numPages & _ & [= <-] & [= <-] & Hpages & _).
  - vm_compute. reflexivity.
  - exact Hpages.
Defined.

(** One page that fails fails the document.  When the document opens and
    the extraction of a page of the clamped range returns an error, the
    pages before it being extracted, [extractTables] returns that error,
    wrapped, and no set. *)
Theorem extractTables_page_error {RT : Runtime}
    (NFKC : gostring → gostring) (File : Type) (Open : gostring → result File)
    (NewPdfReaderLazy : File → result PdfReader)
    (inPath : gostring) (firstPage lastPage : Z) (σ : heap)
    (f : File) (pdfReader : PdfReader) (numPages p : Z) (e : error) :
  Open inPath = Ok f → NewPdfReaderLazy f = Ok pdfReader →
  GetNumPages pdfReader = Ok numPages →
  clampFirst firstPage ≤ p ≤ clampLast lastPage numPages →
  (∀ q, clampFirst firstPage ≤ q < p →
        ∃ tables, extractPageTables NFKC pdfReader q = Ok tables) →
  extractPageTables NFKC pdfReader p = Err e →
  (extractTables NFKC File Open NewPdfReaderLazy inPath firstPage lastPage σ).2
  = Err (ErrorfW "extractPageTables failed. inPath=%q pageNum=%d err=%w" e).
Proof.
  intros Hf Hr Hn Hrange Hbefore Hp.
  unfold extractTables. go_unfold. rewrite Hf. simpl. rewrite Hr. simpl.
  rewrite Hn. simpl. unfold makeMap. simpl.
  set (first := clampFirst firstPage) in *. set (last := clampLast lastPage numPages) in *.
  assert (seqZ first (last - first + 1)
          = seqZ first (p - first) ++ p :: seqZ (p + 1) (last - p)) as Hsplit.
  { replace (last - first + 1) with ((p - first) + (1 + (last - p))) by lia.
    rewrite seqZ_app by lia. f_equal.
    replace (first + (p - first)) with p by lia.
    rewrite seqZ_cons by lia. f_equal. f_equal; lia. }
  rewrite Hsplit.
  pose proof (extractPages_Err NFKC pdfReader (fresh (dom σ))
                (seqZ first (p - first)) p (seqZ (p + 1) (last - p))
                (<[fresh (dom σ) := ∅]> σ) ∅ e) as Hloop.
  destruct (extractPages _ _ _ _ _) as [σ1 res]. simpl in Hloop.
  rewrite Hloop; [done|apply lookup_insert_eq| |done].
  apply Forall_forall. intros q Hq%elem_of_seqZ. apply Hbefore. lia.
Qed.

Lemma extractTables_page_error_page_2 :
  (extractTables (RT := amd64) (λ text, text) unit (λ _, Ok ()) (λ _, Ok brokenPdf)
     (str "PDF/2024/June.pdf") (-1) 10000 ∅).2
  = Err (ErrorfW "extractPageTables failed. inPath=%q pageNum=%d err=%w"
           (LibError (str "bad page"))).
Proof.
  apply (extractTables_page_error (RT := amd64) (λ text, text) unit (λ _, Ok ()) (λ _, Ok brokenPdf)
           (str "PDF/2024/June.pdf") (-1) 10000 ∅ () brokenPdf 2 2);
    try reflexivity.
  - vm_compute. split; discriminate.
  - intros q Hq. assert (q = 1) as -> by (unfold clampFirst in Hq; simpl in Hq; lia).
    by exists [].
Defined.

(** ** [extractDirectory]: every depth *)

Section Split_further.
Implicit Types (s a piece : gostring) (sep : ascii) (pieces : list gostring).

(** The pieces, put together again with the separator, are the string. *)
Lemma Join_Split s sep : Join (Split s sep) [sep] = s.
Proof.
  induction s as [|c s IH]; [done|]. simpl. case_decide as Hc.
  - subst c. pose proof (Split_nonempty s sep).
    destruct (Split s sep) as [|p ps] eqn:HS; [done|]. simpl in *. by rewrite IH.
  - pose proof (Split_nonempty s sep).
    destruct (Split s sep) as [|p ps] eqn:HS; [done|].
    destruct ps as [|p' ps]; simpl in *; by rewrite <-IH.
Qed.

Lemma Split_len_pos s sep : 0 < len (Split s sep).
Proof.
  pose proof (Split_nonempty s sep) as Hne. unfold len.
  destruct (Split s sep); [done|simpl; lia].
Qed.

(** No piece holds the separator. *)
Lemma Split_no_sep s sep : Forall (λ piece, sep ∉ piece) (Split s sep).
Proof.
  induction s as [|c s IH]; simpl.
  - constructor; [|done]. intros Hin. by apply elem_of_nil in Hin.
  - case_decide as Hc.
    + constructor; [|done]. intros Hin. by apply elem_of_nil in Hin.
    + destruct (Split s sep) as [|p ps].
      { constructor; [|done]. apply not_elem_of_cons. split; [done|].
        intros Hin. by apply elem_of_nil in Hin. }
      apply Forall_cons in IH as [Hp Hps]. constructor; [|done].
      by apply not_elem_of_cons.
Qed.

Lemma Split_app_sep a s sep :
  sep ∉ a → Split (a ++ sep :: s) sep = a :: Split s sep.
Proof.
  induction a as [|c a IH]; intros Ha; simpl.
  - by rewrite decide_True.
  - apply not_elem_of_cons in Ha as [Hc Ha]. rewrite decide_False by done.
    by rewrite IH.
Qed.

Lemma Join_cons piece pieces (sp : gostring) :
  pieces ≠ [] → Join (piece :: pieces) sp = piece ++ sp ++ Join pieces sp.
Proof. by destruct pieces. Qed.

Lemma Join_snoc pieces piece (sp : gostring) :
  Join (pieces ++ [piece]) sp = concat ((λ p, p ++ sp) <$> pieces) ++ piece.
Proof.
  induction pieces as [|p pieces IH]; [done|].
  change ((p :: pieces) ++ [piece]) with (p :: (pieces ++ [piece])).
  rewrite Join_cons by (by destruct pieces). rewrite IH. simpl.
  by rewrite <-!app_assoc.
Qed.

(** The last piece is what follows the last separator. *)
Lemma Split_last s sep :
  ∃ dir piece,
    last (Split s sep) = Some piece ∧ s = dir ++ piece ∧ (sep ∉ piece)
    ∧ (dir = [] ∨ ∃ d, dir = d ++ [sep]).
Proof.
  pose proof (Join_Split s sep) as HJ. pose proof (Split_no_sep s sep) as Hno.
  pose proof (Split_nonempty s sep) as Hne.
  destruct (Split s sep) as [|p ps] using rev_ind; [done|].
  exists (concat ((λ q, q ++ [sep]) <$> ps)), p.
  rewrite last_snoc. rewrite Join_snoc in HJ. apply Forall_app in Hno as [_ Hp].
  apply Forall_cons in Hp as [Hp _]. split; [done|]. split; [done|]. split; [done|].
  destruct ps as [|q qs] using rev_ind; [by left|]. right.
  rewrite fmap_app, concat_app. simpl. rewrite app_nil_r.
  exists (concat ((λ q0, q0 ++ [sep]) <$> qs) ++ q). by rewrite <-app_assoc.
Qed.

(** The first piece is what stands before the first separator. *)
Lemma Split_first s sep :
  ∃ piece rest,
    index (Split s sep) 0 = Ok piece ∧ s = piece ++ rest ∧ (sep ∉ piece)
    ∧ (rest = [] ∨ ∃ tail, rest = sep :: tail).
Proof.
  pose proof (Join_Split s sep) as HJ. pose proof (Split_no_sep s sep) as Hno.
  destruct (Split s sep) as [|p ps] eqn:HS; [by apply Split_nonempty in HS|].
  apply Forall_cons in Hno as [Hp _].
  destruct ps as [|q qs].
  - exists p, []. simpl in HJ. rewrite app_nil_r. by repeat split; [..|left].
  - exists p, (sep :: Join (q :: qs) [sep]). cbn [Join] in HJ.
    repeat split; [done..|]. right. by eexists.
Qed.

Lemma index_last {A} (l : list A) (x : A) :
  last l = Some x → index l (len l - 1) = Ok x.
Proof.
  intros Hlast. unfold index, len.
  assert (0 < length l)%nat by (destruct l; simpl in *; [done|lia]).
  replace (Z.of_nat (length l) - 1 <? 0) with false by lia.
  replace (Z.of_nat (length l) - 1 >=? Z.of_nat (length l)) with false by lia.
  simpl. replace (Z.to_nat (Z.of_nat (length l) - 1)) with (pred (length l)) by lia.
  by rewrite <-last_lookup, Hlast.
Qed.

Lemma index_outcome {A} (l : list A) (i : Z) :
  (index l i = Panic ∧ (i < 0 ∨ len l ≤ i))
  ∨ (∃ x, index l i = Ok x ∧ l !! Z.to_nat i = Some x ∧ 0 ≤ i < len l).
Proof.
  unfold index. destruct ((i <? 0) || (i >=? len l)) eqn:Hout.
  - left. split; [done|]. apply orb_true_iff in Hout as [?|?]; lia.
  - apply orb_false_iff in Hout as [? ?].
    destruct (l !! Z.to_nat i) as [x|] eqn:Hx.
    + right. exists x. split; [done|]. split; [done|lia].
    + apply lookup_ge_None in Hx. unfold len in *. lia.
Qed.

Lemma not_elem_of_app_l {A} (x : A) (l1 l2 : list A) : x ∉ l1 ++ l2 → x ∉ l1.
Proof. rewrite elem_of_app. tauto. Qed.

Lemma not_elem_of_app_r {A} (x : A) (l1 l2 : list A) : x ∉ l1 ++ l2 → x ∉ l2.
Proof. rewrite elem_of_app. tauto. Qed.

End Split_further.

(** [extractDirectory], whatever the depth, never returns an error (the
    test [len(parts) == 0] cannot hold).  It panics exactly when the depth
    is below -1 or not below the number of segments of the path; in every
    other case it returns a token, and the token holds neither a period
    nor a slash. *)
Theorem extractDirectory_outcome (path : gostring) (depth : Z) :
  (∀ e, extractDirectory path depth ≠ Err e)
  ∧ (extractDirectory path depth = Panic
     ↔ depth < -1 ∨ len (Split path "/"%char) ≤ depth)
  ∧ (∀ token, extractDirectory path depth = Ok token →
       ("."%char ∉ token) ∧ ("/"%char ∉ token)).
Proof.
  unfold extractDirectory.
  pose proof (Split_nonempty path "/"%char) as Hne.
  pose proof (Split_no_sep path "/"%char) as Hno.
  pose proof (Split_len_pos path "/"%char) as Hlen.
  replace (len (Split path "/"%char) =? 0) with false by lia.
  assert (∀ part, "/"%char ∉ part →
            ∃ token, index (Split part "."%char) 0 = Ok token
                     ∧ ("."%char ∉ token) ∧ ("/"%char ∉ token)) as Htoken.
  { intros part Hpart.
    destruct (Split_first part "."%char) as (token & rest & Hidx & -> & Hdot & _).
    exists token. split; [done|]. split; [done|]. by apply not_elem_of_app_l in Hpart. }
  destruct (depth =? -1) eqn:Hd.
  - apply Z.eqb_eq in Hd as ->.
    destruct (Split_last path "/"%char) as (dir & piece & Hlast & _ & Hpiece & _).
    rewrite (index_last _ _ Hlast). simpl.
    destruct (Htoken piece Hpiece) as (token & -> & Hdot & Hslash).
    split; [by intros e [=]|]. split; [split; [by intros [=]|lia]|].
    by intros ? [= <-].
  - apply Z.eqb_neq in Hd.
    destruct (index_outcome (Split path "/"%char) depth)
      as [[-> Hout]|(part & -> & Hpart & Hin)]; simpl.
    + split; [by intros e [=]|]. split; [|by intros ? [=]]. split; [|done]. intros _.
      lia.
    + assert ("/"%char ∉ part) as Hslash.
      { rewrite Forall_forall in Hno. apply Hno. by eapply list_elem_of_lookup_2. }
      destruct (Htoken part Hslash) as (token & -> & Hdot & Hs).
      split; [by intros e [=]|]. split; [split; [by intros [=]|lia]|].
      by intros ? [= <-].
Qed.

Lemma extractDirectory_last_Ok (path : gostring) :
  ∃ token, extractDirectory path (-1) = Ok token.
Proof.
  destruct (Split_last path "/"%char) as (dir & piece & Hlast & -> & _).
  destruct (Split_first piece "."%char) as (token & ext & Hidx & _).
  exists token. unfold extractDirectory.
  pose proof (Split_len_pos (dir ++ piece) "/"%char) as Hlen.
  replace (len (Split (dir ++ piece) "/"%char) =? 0) with false by lia.
  simpl. rewrite (index_last _ _ Hlast). simpl. exact Hidx.
Qed.

(** The token of depth -1, the one the driver names the month directory
    after: the call always returns, and the token is the file name of the
    path (what follows its last slash) up to the first period of the name. *)
Theorem extractDirectory_last_segment (path : gostring) :
  ∃ dir token ext,
    extractDirectory path (-1) = Ok token
    ∧ path = dir ++ token ++ ext
    ∧ (dir = [] ∨ ∃ d, dir = d ++ ["/"%char])
    ∧ ("/"%char ∉ token ++ ext)
    ∧ ("."%char ∉ token)
    ∧ (ext = [] ∨ ∃ e, ext = "."%char :: e).
Proof.
  destruct (Split_last path "/"%char) as (dir & piece & Hlast & -> & Hpiece & Hdir).
  destruct (Split_first piece "."%char) as (token & ext & Hidx & -> & Hdot & Hext).
  exists dir, token, ext. split; [|done].
  unfold extractDirectory.
  pose proof (Split_len_pos (dir ++ token ++ ext) "/"%char) as Hlen.
  replace (len (Split (dir ++ token ++ ext) "/"%char) =? 0) with false by lia.
  simpl. rewrite (index_last _ _ Hlast). simpl. exact Hidx.
Qed.

(** ** [main] and the driver: the directory and the year token *)

(** [getDirecotry] never returns an error: it returns the path up to its
    first slash.  For the path [PDF/<p>] that [main] hands to the driver,
    the driver's token of depth 1 is that directory name up to its first
    period, and the derivation of the output directory does not panic. *)
Theorem getDirecotry_year_token (remotePath CSVDir : gostring) :
  ∃ dir rest token,
    getDirecotry remotePath = Ok dir
    ∧ remotePath = dir ++ rest ∧ ("/"%char ∉ dir)
    ∧ (rest = [] ∨ ∃ tail, rest = "/"%char :: tail)
    ∧ extractDirectory (str "PDF/" ++ remotePath) 1 = Ok token
    ∧ index (Split dir "."%char) 0 = Ok token
    ∧ csvSubDirOf CSVDir (str "PDF/" ++ remotePath) ≠ Panic.
Proof.
  destruct (Split_first remotePath "/"%char) as (dir & rest & Hidx & -> & Hdir & Hrest).
  destruct (Split_first dir "."%char) as (token & ext & Htok & _).
  exists dir, rest, token.
  assert (getDirecotry (dir ++ rest) = Ok dir) as Hget.
  { unfold getDirecotry.
    pose proof (Split_len_pos (dir ++ rest) "/"%char) as Hlen.
    by replace (len (Split (dir ++ rest) "/"%char) =? 0) with false by lia. }
  assert (extractDirectory (str "PDF/" ++ dir ++ rest) 1 = Ok token) as Hyear.
  { unfold extractDirectory.
    change (str "PDF/" ++ dir ++ rest) with (str "PDF" ++ "/"%char :: (dir ++ rest)).
    rewrite Split_app_sep.
    2: { intros Hin. by repeat (apply elem_of_cons in Hin as [?|Hin]; [done|]);
           apply elem_of_nil in Hin. }
    destruct (Split (dir ++ rest) "/"%char) as [|p ps] eqn:HS;
      [by apply Split_nonempty in HS|].
    assert (p = dir) as -> by (unfold index in Hidx; simpl in Hidx; congruence).
    replace (len (str "PDF" :: dir :: ps) =? 0) with false by (unfold len; simpl; lia).
    assert (index (str "PDF" :: dir :: ps) 1 = Ok dir) as ->.
    { unfold index, len. simpl. replace (1 >=? _) with false; [done|].
      symmetry. rewrite Z.geb_leb. apply Z.leb_gt. lia. }
    exact Htok. }
  do 4 (split; [done|]). split; [done|]. split; [done|].
  unfold csvSubDirOf. rewrite Hyear.
  by destruct (extractDirectory_last_Ok (str "PDF/" ++ dir ++ rest)) as [month ->].
Qed.

(** ** [describe]: the levels *)

Section describe_levels_facts.
Variable Quote : gostring → gostring.

Lemma describeTable_from_4 (level : Z) (i : nat) (table : stringTable) :
  4 ≤ level → describeTable Quote level i table = describeTable Quote 4 i table.
Proof.
  intros Hl. unfold describeTable. destruct (wh table) as [w h].
  by replace (level <=? 3) with false by lia.
Qed.

Lemma describePage_from_4 (level pageNum : Z) (tables : list stringTable) :
  4 ≤ level → describePage Quote level pageNum tables = describePage Quote 4 pageNum tables.
Proof.
  intros Hl. unfold describePage. destruct (len tables =? 0); [done|].
  replace (level <=? 2) with false by lia. replace (4 <=? 2) with false by done.
  assert (imap (describeTable Quote level) tables = imap (describeTable Quote 4) tables)
    as ->; [|done].
  apply imap_ext. intros i table _. by apply describeTable_from_4.
Qed.

End describe_levels_facts.

(** The levels of [describe] end at 4 and start at 1: a level above 4 gives
    the text of level 4, a negative level gives the text of level 1, and
    the text of every level from 1 on starts with the text of level 1. *)
Theorem describe_levels (Quote : gostring → gostring) (σ : heap) (r : docTables)
    (level : Z) :
  describe Quote σ r (Z.max level 4) = describe Quote σ r 4
  ∧ describe Quote σ r (Z.min level (-1)) = describe Quote σ r 1
  ∧ ∃ rest, describe Quote σ r (Z.max level 1) = describe Quote σ r 1 ++ rest.
Proof.
  split; [|split].
  - unfold describe. replace (Z.max level 4 =? 0) with false by lia.
    replace (4 =? 0) with false by done.
    destruct (numTables σ r =? 0); [done|]. cbn [orb].
    replace (Z.max level 4 <=? 1) with false by lia.
    replace (4 <=? 1) with false by done.
    assert ((λ pageNum, describePage Quote (Z.max level 4) pageNum
                          (default [] (readMap σ r !! pageNum))) <$> pageNumbers σ r
            = (λ pageNum, describePage Quote 4 pageNum
                            (default [] (readMap σ r !! pageNum))) <$> pageNumbers σ r)
      as ->; [|done].
    apply list_fmap_ext. intros _ pageNum _. apply describePage_from_4. lia.
  - unfold describe. replace (Z.min level (-1) =? 0) with false by lia.
    replace (1 =? 0) with false by done.
    destruct (numTables σ r =? 0); [done|]. cbn [orb].
    by replace (Z.min level (-1) <=? 1) with true by lia.
  - unfold describe. replace (Z.max level 1 =? 0) with false by lia.
    replace (1 =? 0) with false by done.
    destruct (numTables σ r =? 0); cbn [orb]; [by exists []; rewrite app_nil_r|].
    replace (1 <=? 1) with true by done.
    exists (if Z.max level 1 <=? 1 then []
            else concat ((λ pageNum,
                    describePage Quote (Z.max level 1) pageNum
                      (default [] (readMap σ r !! pageNum))) <$> pageNumbers σ r)).
    rewrite (app_nil_r nl). by rewrite <-!app_assoc.
Qed.

(** ** [describe]: the number of lines *)

Section lines_facts.
Implicit Types (s : gostring) (n : Z).

Lemma lines_app s1 s2 : lines (s1 ++ s2) = (lines s1 + lines s2)%nat.
Proof. unfold lines. by rewrite List.filter_app, length_app. Qed.

Lemma lines_concat (l : list gostring) : lines (concat l) = sum_list (lines <$> l).
Proof.
  induction l as [|s l IH]; [done|]. simpl. by rewrite lines_app, IH.
Qed.

Lemma lines_none s : LF ∉ s → lines s = 0%nat.
Proof.
  unfold lines. induction s as [|c s IH]; [done|]. intros Hs.
  apply not_elem_of_cons in Hs as [Hc Hs]. simpl.
  rewrite bool_decide_eq_false_2 by done. by apply IH.
Qed.

(** The decimal digits of a number hold no newline. *)
Lemma pretty_N_go_no_LF (x : N) (s : string) :
  LF ∉ str s → LF ∉ str (pretty_N_go x s).
Proof.
  revert s. induction (N.lt_wf_0 x) as [x _ IH]; intros s Hs.
  assert (x = 0 ∨ 0 < x)%N as [->|Hx] by lia; [by rewrite pretty_N_go_0|].
  rewrite pretty_N_go_step by done. apply IH; [by apply N.div_lt|].
  rewrite str_String. apply not_elem_of_cons. split; [|done].
  unfold pretty_N_char. by repeat case_match.
Qed.

Lemma lines_fmtInt n : lines (fmtInt n) = 0%nat.
Proof.
  apply lines_none.
  assert (∀ x : N, LF ∉ str (pretty x)) as HN.
  { intros x. unfold pretty, pretty_N. case_decide.
    - intros Hin. by repeat (apply elem_of_cons in Hin as [?|Hin]; [done|]);
        apply elem_of_nil in Hin.
    - apply pretty_N_go_no_LF. intros Hin. by apply elem_of_nil in Hin. }
  unfold fmtInt, pretty, pretty_Z. destruct n as [|x|x].
  - intros Hin. by repeat (apply elem_of_cons in Hin as [?|Hin]; [done|]);
      apply elem_of_nil in Hin.
  - apply HN.
  - change (str ("-" +:+ pretty x)) with ("-"%char :: str (pretty (N.pos x))).
    apply not_elem_of_cons. split; [done|apply HN].
Qed.

End lines_facts.

Section describe_lines_facts.
Variable Quote : gostring → gostring.
Implicit Types (tables : list stringTable) (M : pageMap).

(** At level 3 a table takes one line. *)
Lemma lines_describeTable_3 (i : nat) (table : stringTable) :
  lines (describeTable Quote 3 i table) = 1%nat.
Proof.
  unfold describeTable. destruct (wh table) as [w h].
  replace (3 <=? 3) with true by done. cbn [orb].
  rewrite !lines_app, !lines_fmtInt. reflexivity.
Qed.

Lemma lines_imap_one (h : nat → stringTable → gostring) tables :
  (∀ i table, lines (h i table) = 1%nat) →
  lines (concat (imap h tables)) = length tables.
Proof.
  revert h. induction tables as [|table tables IH]; intros h Hh; [done|].
  cbn [imap concat length]. rewrite lines_app, Hh.
  rewrite IH; [done|]. intros i t. apply Hh.
Qed.

(** At level 2 a page with tables takes one line, at level 3 one more for
    each of its tables; a page without tables takes none. *)
Lemma lines_describePage_2 (pageNum : Z) tables :
  lines (describePage Quote 2 pageNum tables)
  = if bool_decide (tables ≠ []) then 1%nat else 0%nat.
Proof.
  unfold describePage. destruct tables as [|table tables]; [done|].
  replace (len (table :: tables) =? 0) with false by (unfold len; simpl; lia).
  rewrite bool_decide_eq_true_2 by done.
  replace (2 <=? 2) with true by done.
  rewrite !lines_app, !lines_fmtInt. reflexivity.
Qed.

Lemma lines_describePage_3 (pageNum : Z) tables :
  lines (describePage Quote 3 pageNum tables)
  = if bool_decide (tables ≠ []) then S (length tables) else 0%nat.
Proof.
  unfold describePage. destruct tables as [|table tables]; [done|].
  replace (len (table :: tables) =? 0) with false by (unfold len; simpl; lia).
  rewrite bool_decide_eq_true_2 by done.
  replace (3 <=? 2) with false by done.
  rewrite !lines_app, !lines_fmtInt.
  rewrite lines_imap_one by apply lines_describeTable_3.
  change (lines (str "   page ")) with 0%nat. change (lines (str ": ")) with 0%nat.
  change (lines (str " tables")) with 0%nat. change (lines nl) with 1%nat. lia.
Qed.

(** A sum over the sorted page numbers is the sum over the entries. *)
Lemma sum_pages (g : list stringTable → nat) (σ : heap) (r : docTables) :
  sum_list ((λ pageNum, g (default [] (readMap σ r !! pageNum))) <$> pageNumbers σ r)
  = sum_list ((λ e : Z * list stringTable, g e.2) <$> map_to_list (readMap σ r)).
Proof.
  unfold pageNumbers. rewrite merge_sort_Permutation.
  rewrite <-list_fmap_compose. f_equal. apply list_fmap_ext.
  intros _ [p tables] Hin%list_elem_of_lookup_2%elem_of_map_to_list.
  simpl. by rewrite Hin.
Qed.

Lemma sum_pagesWithTables (entries : list (Z * list stringTable)) :
  sum_list ((λ e : Z * list stringTable,
               if bool_decide (e.2 ≠ []) then 1%nat else 0%nat) <$> entries)
  = length (List.filter (λ e : Z * list stringTable, bool_decide (e.2 ≠ [])) entries).
Proof.
  assert (∀ (x : nat) l, sum_list (x :: l) = (x + sum_list l)%nat) as Hsum by done.
  induction entries as [|e entries IH]; [done|].
  rewrite fmap_cons, Hsum, IH. clear IH. simpl.
  by destruct (bool_decide (e.2 ≠ [])).
Qed.

Lemma sum_pagesWithTables_tables (entries : list (Z * list stringTable)) :
  Z.of_nat (sum_list ((λ e : Z * list stringTable,
               if bool_decide (e.2 ≠ []) then S (length e.2) else 0%nat) <$> entries))
  = Z.of_nat (length (List.filter (λ e : Z * list stringTable, bool_decide (e.2 ≠ []))
                        entries))
    + foldr (λ e s, len e.2 + s) 0 entries.
Proof.
  assert (∀ (x : nat) l, sum_list (x :: l) = (x + sum_list l)%nat) as Hsum by done.
  induction entries as [|[p tables] entries IH]; [done|].
  rewrite fmap_cons, Hsum, Nat2Z.inj_add, IH. clear IH.
  destruct tables as [|table tables]; unfold len; simpl; lia.
Qed.

End describe_lines_facts.

(** The lines of [describe].  Level 1 is one line.  Level 2 is one line
    and a line for every page that holds a table.  Level 3 is, on top of
    these, a line for every table of the set. *)
Theorem describe_lines (Quote : gostring → gostring) (σ : heap) (r : docTables) :
  lines (describe Quote σ r 1) = 1%nat
  ∧ lines (describe Quote σ r 2) = S (pagesWithTables (readMap σ r))
  ∧ Z.of_nat (lines (describe Quote σ r 3))
    = 1 + Z.of_nat (pagesWithTables (readMap σ r)) + numTables σ r.
Proof.
  assert (∀ level g,
            (∀ pageNum tables, lines (describePage Quote level pageNum tables) = g tables) →
            lines (concat ((λ pageNum, describePage Quote level pageNum
                                         (default [] (readMap σ r !! pageNum)))
                             <$> pageNumbers σ r))
            = sum_list ((λ e : Z * list stringTable, g e.2) <$> map_to_list (readMap σ r)))
    as Hpages.
  { intros level g Hg. rewrite lines_concat, <-list_fmap_compose, <-sum_pages.
    f_equal. apply list_fmap_ext. intros _ pageNum _. simpl. apply Hg. }
  destruct (decide (numTables σ r = 0)) as [Hzero|Hnonzero].
  - assert (∀ level, describe Quote σ r level = nl) as Hnl.
    { intros level. unfold describe. by rewrite Hzero, orb_true_r. }
    assert (pagesWithTables (readMap σ r) = 0%nat) as ->.
    { unfold pagesWithTables. pose proof (proj1 (numTables_zero σ r) Hzero) as Hall.
      assert (Forall (λ e : Z * list stringTable, e.2 = []) (map_to_list (readMap σ r)))
        as Hentries.
      { apply Forall_forall. intros [p tables] Hin%elem_of_map_to_list. by apply (Hall p). }
      clear Hpages Hall.
      induction Hentries as [|e entries He _ IH]; [done|]. simpl.
      rewrite He. simpl. exact IH. }
    rewrite !Hnl, Hzero. done.
  - assert (∀ level, level ≠ 0 →
      describe Quote σ r level
      = fmtInt (len (pageNumbers σ r)) ++ str " pages "
          ++ fmtInt (numTables σ r) ++ str " tables" ++ nl
          ++ (if level <=? 1 then []
              else concat ((λ pageNum, describePage Quote level pageNum
                                         (default [] (readMap σ r !! pageNum)))
                             <$> pageNumbers σ r))) as Hdesc.
    { intros level Hl. unfold describe.
      replace (level =? 0) with false by lia.
      by replace (numTables σ r =? 0) with false by lia. }
    split; [|split].
    + rewrite Hdesc by done. replace (1 <=? 1) with true by done.
      rewrite !lines_app, !lines_fmtInt. reflexivity.
    + rewrite Hdesc by done. replace (2 <=? 1) with false by done.
      rewrite !lines_app, !lines_fmtInt.
      rewrite (Hpages 2 (λ tables, if bool_decide (tables ≠ []) then 1%nat else 0%nat))
        by (intros; apply lines_describePage_2).
      rewrite sum_pagesWithTables. reflexivity.
    + rewrite Hdesc by done. replace (3 <=? 1) with false by done.
      rewrite !lines_app, !lines_fmtInt.
      rewrite (Hpages 3 (λ tables, if bool_decide (tables ≠ [])
                                   then S (length tables) else 0%nat))
        by (intros; apply lines_describePage_3).
      change (lines (str " pages ")) with 0%nat. change (lines (str " tables")) with 0%nat.
      change (lines nl) with 1%nat.
      rewrite !Nat.add_0_l, Nat2Z.inj_add, sum_pagesWithTables_tables.
      unfold numTables, pagesWithTables. rewrite foldl_len_sum. simpl. lia.
Qed.

(** ** The outcome of [saveCSVFiles] *)

Section saveCSVFiles_outcome_facts.

Implicit Types (plan : list (gostring * stringTable)) (fs : fsys).

Lemma saveAll_Ok_inv plan fs :
  (saveAll plan fs).2 = Ok tt →
  Forall (λ pt, rectangular pt.2 ∧ pt.1 ∉ denied fs) plan.
Proof.
  revert fs. induction plan as [|[path table] plan IH]; intros fs Hok; [by constructor|].
  simpl in Hok. go_unfold_in Hok.
  destruct (csv table) as [contents|e|] eqn:Hcsv; [|done..].
  unfold WriteFile in Hok. simpl in Hok.
  destruct (decide (path ∈ denied fs)) as [Hin|Hnotin]; [done|]. simpl in Hok.
  constructor; [by split; [eapply csv_returns|]|].
  apply (IH _ Hok).
Qed.

(** The files of the plan that can be written are written, and the rest of
    the plan is run on the disk that holds them. *)
Lemma saveAll_prefix pre rest fs :
  Forall (λ pt, rectangular pt.2 ∧ pt.1 ∉ denied fs) pre →
  ∃ ws, Forall2 writes ws pre
        ∧ saveAll (pre ++ rest) fs = saveAll rest (Fsys (written fs ++ ws) (denied fs)).
Proof.
  revert fs. induction pre as [|[path table] pre IH]; intros fs Hpre.
  { exists []. split; [constructor|]. rewrite app_nil_r. by destruct fs. }
  apply Forall_cons in Hpre as [[Hrect Hpath] Hpre]. simpl in Hrect, Hpath.
  destruct (IH (Fsys (written fs ++ [(path, concat (writeRecord <$> table))]) (denied fs))
              Hpre) as (ws & Hws & Hrun).
  exists ((path, concat (writeRecord <$> table)) :: ws). split.
  { constructor; [|done]. split; [done|]. by apply csv_Ok. }
  simpl in *. go_unfold. rewrite (csv_Ok _ Hrect).
  unfold WriteFile. rewrite decide_False by done. simpl.
  rewrite Hrun. by rewrite <-app_assoc.
Qed.

Lemma saveAll_first_failure path table post fs :
  (¬ rectangular table → saveAll ((path, table) :: post) fs = (fs, Panic))
  ∧ (rectangular table → path ∈ denied fs →
     ∃ cause, saveAll ((path, table) :: post) fs
              = (fs, Err (ErrorfW "failed to write csvPath=%q err=%w" cause))).
Proof.
  split.
  - intros Hno. simpl. go_unfold.
    destruct (csv table) as [contents|e|] eqn:Hcsv; [|by apply csv_not_Err in Hcsv|done].
    by apply csv_returns in Hcsv.
  - intros Hrect Hin. simpl. go_unfold. rewrite (csv_Ok _ Hrect).
    unfold WriteFile. rewrite decide_True by done. by eexists.
Qed.

End saveCSVFiles_outcome_facts.

(** The outcome of [saveCSVFiles].  The call returns without error exactly
    when every table of the set is rectangular and none of the files to
    write is refused.  Otherwise it stops at the first file that cannot be
    written: the files before it stay on disk, nothing after it is written;
    a table that is not rectangular makes the call panic, a refused write
    makes it return the error of the write, wrapped. *)
Theorem saveCSVFiles_outcome (σ : heap) (r : docTables) (csvRoot : gostring) (fs : fsys) :
  ((saveCSVFiles σ r csvRoot fs).2 = Ok tt
   ↔ Forall (λ pt, rectangular pt.2 ∧ pt.1 ∉ denied fs)
       (plannedFiles (readMap σ r) csvRoot (pageNumbers σ r)))
  ∧ (∀ pre path table post,
       plannedFiles (readMap σ r) csvRoot (pageNumbers σ r) = pre ++ (path, table) :: post →
       Forall (λ pt, rectangular pt.2 ∧ pt.1 ∉ denied fs) pre →
       ∃ ws, Forall2 writes ws pre
         ∧ (¬ rectangular table →
            saveCSVFiles σ r csvRoot fs = (Fsys (written fs ++ ws) (denied fs), Panic))
         ∧ (rectangular table → path ∈ denied fs →
            ∃ cause,
              saveCSVFiles σ r csvRoot fs
              = (Fsys (written fs ++ ws) (denied fs),
                 Err (ErrorfW "failed to write csvPath=%q err=%w" cause)))).
Proof.
  unfold saveCSVFiles. rewrite savePages_saveAll. split.
  - split; [apply saveAll_Ok_inv|apply saveAll_Ok].
  - intros pre path table post -> Hpre.
    destruct (saveAll_prefix pre ((path, table) :: post) fs Hpre) as (ws & Hws & ->).
    exists ws. split; [done|].
    apply (saveAll_first_failure path table post (Fsys (written fs ++ ws) (denied fs))).
Qed.

(** ** [normalizeTable] and the shape of a table *)

(** [normalizeTable] changes the cells and nothing else: the table keeps
    its width and height, so the size test of [filter] gives the same
    answer before and after; it is rectangular exactly when it was, so [csv]
    panics on it exactly when it did on the table before.  When NFKC is
    lawful, normalising a second time changes nothing. *)
Theorem normalizeTable_shape (NFKC : gostring → gostring) (t : stringTable) :
  wh (normalizeTable NFKC t) = wh t
  ∧ (∀ width height,
       passes width height (normalizeTable NFKC t) = passes width height t)
  ∧ (rectangular (normalizeTable NFKC t) ↔ rectangular t)
  ∧ (csv (normalizeTable NFKC t) = Panic ↔ csv t = Panic)
  ∧ (NFKCLaws NFKC →
     normalizeTable NFKC (normalizeTable NFKC t) = normalizeTable NFKC t).
Proof.
  pose proof (normalizeTable_lengths NFKC t) as Hl.
  assert (rectangular (normalizeTable NFKC t) ↔ rectangular t) as Hrect.
  { split; by apply rectangular_lengths. }
  split; [by apply wh_lengths|].
  split; [intros width height; unfold passes; by rewrite (wh_lengths _ _ Hl)|].
  split; [done|].
  split; [by rewrite !csv_Panic_iff, Hrect|].
  intros laws. unfold normalizeTable. rewrite <-list_fmap_compose.
  apply list_fmap_ext. intros _ row _. simpl. rewrite <-list_fmap_compose.
  apply list_fmap_ext. intros _ cell _. simpl. unfold normalize.
  rewrite (reduceSpaces_normal NFKC laws) by apply (NFKC_idem NFKC laws).
  apply reduceSpaces_idem.
Qed.

(** ** [main]: the download of the menu files *)

Section main_facts.
Context {W : Type} `{!System W}.

Lemma getDirecotry_Ok (filePath : gostring) : ∃ dir, getDirecotry filePath = Ok dir.
Proof.
  unfold getDirecotry. pose proof (Split_len_pos filePath "/"%char) as Hlen.
  replace (len (Split filePath "/"%char) =? 0) with false by lia.
  apply index_0_Split.
Qed.

Lemma relativeLinks_cons (path : gostring) (rest : list gostring) :
  relativeLinks (path :: rest)
  = if Contains path (str "://") then relativeLinks rest else path :: relativeLinks rest.
Proof. unfold relativeLinks. simpl. by destruct (Contains path _). Qed.

(** After the first link that is downloaded, the loop downloads the
    remaining links without [://] and collects their local paths. *)
Lemma downloadPDFs_rest (url : gostring) (remote localPaths : list gostring) (w : W) :
  downloadPDFs url remote false localPaths w
  = (downloadAll url (relativeLinks remote) ;;
     mret (localPaths ++ ((λ path, PDFRoot ++ path) <$> relativeLinks remote))) w.
Proof.
  revert localPaths w. induction remote as [|path rest IH]; intros localPaths w.
  { simpl. go_unfold. by rewrite app_nil_r. }
  rewrite relativeLinks_cons. cbn [downloadPDFs]. unfold makeFullPath.
  destruct (Contains path (str "://")); [apply IH|].
  destruct (getDirecotry_Ok path) as [dir ->].
  cbn [downloadAll]. go_unfold. cbn [mret Go_ret].
  destruct (DownloadFile _ _ w) as [w1 [[]|e|]]; [|done..].
  rewrite IH. go_unfold. rewrite fmap_cons.
  destruct (downloadAll url (relativeLinks rest) w1) as [w2 [[]|e|]]; [|done..].
  cbn [mret Go_ret]. by rewrite <-app_assoc.
Qed.

End main_facts.

(** The loop of [main] over the links.  A link that holds [://] is
    skipped: it is not downloaded and its path is not handed on.  The other
    links are downloaded in the order of the page, the link [p] from the
    address [url + p] to the file [PDF/p].  One directory is made, before
    the first download: [PDF/d] for the part [d] of the first of these links
    before its first slash; no directory is made for the links after it.
    The loop hands on the local paths [PDF/p], in the order of the page. *)
Theorem downloadPDFs_spec {W : Type} `{!System W}
    (url : gostring) (remotePDFFilePath : list gostring) (w : W) :
  downloadPDFs url remotePDFFilePath true [] w
  = match relativeLinks remotePDFFilePath with
    | [] => (w, Ok [])
    | firstLink :: _ =>
        (direcoryName ← lift (getDirecotry firstLink);
         makeDirecoty (PDFRoot ++ direcoryName) ;;
         downloadAll url (relativeLinks remotePDFFilePath) ;;
         mret ((λ path, PDFRoot ++ path) <$> relativeLinks remotePDFFilePath)) w
    end.
Proof.
  induction remotePDFFilePath as [|path rest IH]; [done|].
  rewrite relativeLinks_cons. cbn [downloadPDFs]. unfold makeFullPath.
  destruct (Contains path (str "://")); [apply IH|].
  destruct (getDirecotry_Ok path) as [dir ->].
  cbn [downloadAll]. go_unfold.
  destruct (makeDirecoty _ w) as [w1 [[]|e|]]; [|done..].
  destruct (DownloadFile _ _ w1) as [w2 [[]|e|]]; [|done..].
  rewrite downloadPDFs_rest. go_unfold.
  by destruct (downloadAll url (relativeLinks rest) w2) as [w3 [[]|e|]].
Qed.

Section main_run_facts.
Context {W : Type} `{!System W}.

(** The paths the loop hands on when it ends. *)
Lemma downloadPDFs_paths (url : gostring) (remote : list gostring) (first : bool)
    (localPaths paths : list gostring) (w w' : W) :
  downloadPDFs url remote first localPaths w = (w', Ok paths) →
  paths = localPaths ++ ((λ path, PDFRoot ++ path) <$> relativeLinks remote).
Proof.
  revert first localPaths w. induction remote as [|path rest IH]; intros first localPaths w.
  { simpl. intros [= _ <-]. by rewrite app_nil_r. }
  rewrite relativeLinks_cons. cbn [downloadPDFs]. unfold makeFullPath.
  destruct (Contains path (str "://")); [apply IH|].
  destruct (getDirecotry_Ok path) as [dir ->]. go_unfold.
  assert (∀ w1, (let (w2, res) := DownloadFile (PDFRoot ++ path) (url ++ path) w1 in
                  match res with
                  | Ok _ => downloadPDFs url rest false (localPaths ++ [PDFRoot ++ path]) w2
                  | Err e => (w2, Err e)
                  | Panic => (w2, Panic)
                  end) = (w', Ok paths) →
                 paths = localPaths
                         ++ ((λ path, PDFRoot ++ path) <$> path :: relativeLinks rest))
    as Hdownload.
  { intros w1. destruct (DownloadFile _ _ w1) as [w2 [[]|e|]]; [|done..].
    intros ->%IH. by rewrite <-app_assoc. }
  destruct first; [|apply Hdownload].
  destruct (makeDirecoty _ w) as [w1 [[]|e|]]; [|done..]. apply Hdownload.
Qed.

(** The links [getPDFFilePath] returns: the [href] values of the rows that
    are present and not empty, every one of them, in the order of the rows. *)
Lemma getPDFFilePath_Ok (fileInfos : gostring) (remote : list gostring) :
  getPDFFilePath fileInfos = Ok remote →
  fileInfos ≠ []
  ∧ (∃ doc, goquery_NewDocumentFromReader fileInfos = Ok doc
            ∧ Some <$> remote
              = List.filter (λ href, bool_decide (href ≠ None ∧ href ≠ Some []))
                  (rowLinks doc)).
Proof.
  unfold getPDFFilePath. destruct fileInfos as [|c fileInfos]; [done|].
  replace (len (c :: fileInfos) =? 0) with false by (unfold len; simpl; lia).
  unfold mbind, result_bind.
  destruct (goquery_NewDocumentFromReader _) as [doc|e|]; [|done..].
  intros [= <-]. split; [done|]. exists doc. split; [done|].
  induction (rowLinks doc) as [|href hrefs IH]; [done|].
  destruct href as [[|c' path]|]; cbn [omap list_omap List.filter].
  - rewrite bool_decide_eq_false_2 by (by intros [_ ?]). apply IH.
  - rewrite bool_decide_eq_true_2 by done.
    assert ((len (c' :: path) >? 0) = true) as ->
      by (rewrite Z.gtb_ltb; apply Z.ltb_lt; unfold len; simpl; lia).
    rewrite fmap_cons. by f_equal.
  - rewrite bool_decide_eq_false_2 by (by intros [? _]). apply IH.
Qed.

Lemma elem_of_present_links (remote : list gostring) (hrefs : list (option gostring)) :
  Some <$> remote
  = List.filter (λ href, bool_decide (href ≠ None ∧ href ≠ Some [])) hrefs →
  ∀ path, path ∈ remote ↔ path ≠ [] ∧ Some path ∈ hrefs.
Proof.
  intros Hremote path.
  assert (path ∈ remote ↔ Some path ∈ Some <$> remote) as ->.
  { rewrite list_elem_of_fmap. split; [by exists path|]. by intros (? & [= <-] & ?). }
  rewrite Hremote, list_elem_of_In, filter_In, <-list_elem_of_In, bool_decide_eq_true.
  split.
  - intros [Hin [_ Hne]]. split; [|done]. by intros ->.
  - intros [Hne Hin]. split; [done|]. split; [done|]. by intros [= ->].
Qed.

End main_run_facts.

(** [main] does not read the page it downloads.  When the page of the
    month cannot be read and no byte of it is returned (the file is not on
    disk), [main] downloads the page and then ends with the error
    [readedFile is empty], whatever the download gave: it makes no
    directory, downloads no menu and does not call the driver. *)
Theorem main_html_not_reread {W : Type} `{!System W}
    (extractPDF : list gostring → Go W unit) (w w0 : W) (err : option error) :
  ioutil_ReadFile (str "html/ryoushoku" ++ time_Month w ++ str ".html") w
    = (w0, ([], err)) →
  main extractPDF w
  = ((match err with
      | Some _ => DownloadFile (str "html/ryoushoku" ++ time_Month w ++ str ".html")
                    (url ++ str "ryoushoku.html")
      | None => mret tt
      end) ;; lift (Err (Errorf "readedFile is empty"))) w0
  ∧ (main extractPDF w).2 ≠ Ok tt.
Proof.
  intros Hread.
  assert (main extractPDF w
          = ((match err with
              | Some _ => DownloadFile (str "html/ryoushoku" ++ time_Month w ++ str ".html")
                            (url ++ str "ryoushoku.html")
              | None => mret tt
              end) ;; lift (Err (Errorf "readedFile is empty"))) w0) as Hmain.
  { unfold main, getNowManth, gets. go_unfold. rewrite Hread. go_unfold.
    by destruct (_ w0) as [w1 [[]|e|]]. }
  split; [done|]. rewrite Hmain. go_unfold.
  by destruct (_ w0) as [w1 [[]|e|]].
Qed.

Lemma main_html_not_reread_first_run :
  ioutil_ReadFile (str "html/ryoushoku" ++ time_Month [] ++ str ".html") []
    = ([], ([], Some noSuchFile))
  ∧ main idleDriver ([] : list gostring)
    = (DownloadFile (str "html/ryoushoku" ++ time_Month [] ++ str ".html")
         (url ++ str "ryoushoku.html") ;; lift (Err (Errorf "readedFile is empty"))) []
  ∧ (main idleDriver ([] : list gostring)).2 ≠ Ok tt.
Proof.
  split; [reflexivity|].
  apply (main_html_not_reread idleDriver [] [] (Some noSuchFile)). reflexivity.
Defined.

(** When [main] ends without error, the page of the month was read from
    the disk with at least one byte (and, if reading gave an error as well,
    the download of the page returned); the parser accepted these bytes;
    the links taken from them are the [href] values of the rows that are
    present and not empty, every one of them and in the order of the rows;
    at least one of them holds no [://]; the loop over the links ran to its
    end; and the driver was called after it, on the local paths [PDF/p] of
    the links [p] without [://], in the order of the page, and returned
    without error. *)
Theorem main_returns {W : Type} `{!System W}
    (extractPDF : list gostring → Go W unit) (w : W) :
  (main extractPDF w).2 = Ok tt →
  ∃ w0 fileInfos err doc remote w1 w2,
    ioutil_ReadFile (str "html/ryoushoku" ++ time_Month w ++ str ".html") w
      = (w0, (fileInfos, err))
    ∧ fileInfos ≠ []
    ∧ match err with
      | Some _ => DownloadFile (str "html/ryoushoku" ++ time_Month w ++ str ".html")
                    (url ++ str "ryoushoku.html") w0 = (w1, Ok tt)
      | None => w1 = w0
      end
    ∧ goquery_NewDocumentFromReader fileInfos = Ok doc
    ∧ Some <$> remote
      = List.filter (λ href, bool_decide (href ≠ None ∧ href ≠ Some [])) (rowLinks doc)
    ∧ (∀ path, path ∈ remote ↔ path ≠ [] ∧ Some path ∈ rowLinks doc)
    ∧ relativeLinks remote ≠ []
    ∧ downloadPDFs url remote true [] w1
      = (w2, Ok ((λ path, PDFRoot ++ path) <$> relativeLinks remote))
    ∧ main extractPDF w
      = extractPDF ((λ path, PDFRoot ++ path) <$> relativeLinks remote) w2.
Proof.
  unfold main, getNowManth, gets. go_unfold.
  destruct (ioutil_ReadFile _ w) as [w0 [fileInfos err]] eqn:Hread. go_unfold.
  destruct (_ w0) as [w1 [[]|e|]] eqn:Hpage; [|done..].
  destruct (getPDFFilePath fileInfos) as [remote|e|] eqn:Hlinks; [|done..].
  destruct (downloadPDFs url remote true [] w1) as [w2 [paths|e|]] eqn:Hloop; [|done..].
  pose proof (downloadPDFs_paths _ _ _ _ _ _ _ Hloop) as ->. rewrite app_nil_l in *.
  apply getPDFFilePath_Ok in Hlinks as (Hne & doc & Hdoc & Hremote).
  destruct (relativeLinks remote) as [|link links] eqn:Hrel; [done|].
  replace (len _ =? 0) with false by (unfold len; simpl; lia).
  intros Hok. exists w0, fileInfos, err, doc, remote, w1, w2. rewrite Hrel.
  split_and!; try done.
  - destruct err; [done|]. by injection Hpage.
  - by apply elem_of_present_links.
Qed.

Lemma main_returns_second_run :
  (main idleDriver [str "html/ryoushokuApril.html"]).2 = Ok tt
  ∧ ∃ w0 fileInfos err doc remote w1 w2,
      ioutil_ReadFile (str "html/ryoushoku" ++ time_Month [str "html/ryoushokuApril.html"]
                         ++ str ".html") [str "html/ryoushokuApril.html"]
        = (w0, (fileInfos, err))
      ∧ fileInfos ≠ []
      ∧ match err with
        | Some _ => DownloadFile (str "html/ryoushoku"
                                    ++ time_Month [str "html/ryoushokuApril.html"]
                                    ++ str ".html")
                      (url ++ str "ryoushoku.html") w0 = (w1, Ok tt)
        | None => w1 = w0
        end
      ∧ goquery_NewDocumentFromReader fileInfos = Ok doc
      ∧ Some <$> remote
        = List.filter (λ href, bool_decide (href ≠ None ∧ href ≠ Some [])) (rowLinks doc)
      ∧ (∀ path, path ∈ remote ↔ path ≠ [] ∧ Some path ∈ rowLinks doc)
      ∧ relativeLinks remote ≠ []
      ∧ downloadPDFs url remote true [] w1
        = (w2, Ok ((λ path, PDFRoot ++ path) <$> relativeLinks remote))
      ∧ main idleDriver [str "html/ryoushokuApril.html"]
        = idleDriver ((λ path, PDFRoot ++ path) <$> relativeLinks remote) w2.
Proof.
  split; [reflexivity|].
  apply (main_returns idleDriver [str "html/ryoushokuApril.html"]). reflexivity.
Defined.

(** ** [patternsToPaths] *)

Section strLe_facts.

Lemma strLe_refl s : strLe s s.
Proof. unfold strLe. induction s as [|c s IH]; simpl; [done|]. by rewrite N.ltb_irrefl. Qed.

Global Instance strLe_total : Total strLe.
Proof.
  unfold strLe. intros s. induction s as [|c s IH]; intros [|d t]; simpl; auto.
  destruct (N.ltb_spec (N_of_ascii c) (N_of_ascii d)); [by left|].
  destruct (N.ltb_spec (N_of_ascii d) (N_of_ascii c)); [by right|].
  apply IH.
Qed.

Global Instance strLe_trans : Transitive strLe.
Proof.
  unfold strLe. intros s. induction s as [|c s IH]; intros [|d t] [|e u]; simpl; try done.
  destruct (N.ltb_spec (N_of_ascii c) (N_of_ascii d)),
           (N.ltb_spec (N_of_ascii d) (N_of_ascii e)),
           (N.ltb_spec (N_of_ascii c) (N_of_ascii e)); try done; try lia.
  all: destruct (N.ltb_spec (N_of_ascii d) (N_of_ascii c)); try done; try lia.
  all: destruct (N.ltb_spec (N_of_ascii e) (N_of_ascii d)); try done; try lia.
  all: destruct (N.ltb_spec (N_of_ascii e) (N_of_ascii c)); try done; try lia.
  apply IH.
Qed.

Lemma strLe_antisym s t : strLe s t → strLe t s → s = t.
Proof.
  unfold strLe. revert t. induction s as [|c s IH]; intros [|d t]; simpl; try done.
  destruct (N.ltb_spec (N_of_ascii c) (N_of_ascii d)),
           (N.ltb_spec (N_of_ascii d) (N_of_ascii c)); try done; try lia.
  intros Hst Hts. f_equal; [|by apply IH].
  assert (N_of_ascii c = N_of_ascii d) as Hcd by lia.
  apply (f_equal ascii_of_N) in Hcd. by rewrite !ascii_N_embedding in Hcd.
Qed.

End strLe_facts.

Section patternsToPaths_facts.
Variable homeDir : gostring.
Variable Glob : gostring → result (list gostring).
Variable FileInfo : Type.
Variable Stat : gostring → result FileInfo.
Variable IsRegular : FileInfo → bool.

Local Abbreviation regularFile := (regularFile FileInfo Stat IsRegular).
Local Abbreviation appendRegular := (appendRegular FileInfo Stat IsRegular).
Local Abbreviation appendMatches := (appendMatches homeDir Glob FileInfo Stat IsRegular).
Local Abbreviation regularFiles := (regularFiles homeDir Glob FileInfo Stat IsRegular).
Local Abbreviation readable := (readable homeDir Glob FileInfo Stat).

Lemma appendRegular_Ok files pathList :
  Forall (λ filename, ∃ fi, Stat filename = Ok fi) files →
  appendRegular files pathList
  = Ok (pathList ++ List.filter (λ filename,
                      match regularFile filename with Ok ok => ok | _ => false end) files).
Proof.
  revert pathList. induction files as [|filename files IH]; intros pathList Hall.
  { simpl. by rewrite app_nil_r. }
  apply Forall_cons in Hall as [[fi Hfi] Hall].
  assert (regularFile filename = Ok (IsRegular fi)) as Hreg.
  { unfold regularFile. by rewrite Hfi. }
  cbn [appendRegular List.filter]. rewrite Hreg. unfold mbind, result_bind.
  destruct (IsRegular fi); cbn [negb]; rewrite IH by done; [|done].
  by rewrite <-app_assoc.
Qed.

Lemma appendRegular_returns files pathList out :
  appendRegular files pathList = Ok out →
  Forall (λ filename, ∃ fi, Stat filename = Ok fi) files.
Proof.
  revert pathList. induction files as [|filename files IH]; intros pathList Hout;
    [by constructor|].
  cbn [appendRegular] in Hout. unfold regularFile, mbind, result_bind in Hout.
  destruct (Stat filename) as [fi|e|] eqn:Hfi; [|done..].
  constructor; [by exists fi|].
  destruct (IsRegular fi); simpl in Hout; by eapply IH.
Qed.

Lemma appendMatches_Ok patternList pathList :
  Forall readable patternList →
  appendMatches patternList pathList = Ok (pathList ++ (patternList ≫= regularFiles)).
Proof.
  revert pathList. induction patternList as [|pattern rest IH]; intros pathList Hall.
  { simpl. by rewrite app_nil_r. }
  apply Forall_cons in Hall as [(files & Hglob & Hstat) Hall].
  cbn [appendMatches]. rewrite Hglob. unfold mbind at 1 2, result_bind.
  rewrite (appendRegular_Ok _ _ Hstat), IH by done.
  rewrite bind_cons. unfold regularFiles at 2. rewrite Hglob. by rewrite <-app_assoc.
Qed.

Lemma appendMatches_returns patternList pathList out :
  appendMatches patternList pathList = Ok out → Forall readable patternList.
Proof.
  revert pathList. induction patternList as [|pattern rest IH]; intros pathList Hout;
    [by constructor|].
  cbn [appendMatches] in Hout. unfold mbind, result_bind in Hout.
  destruct (Glob _) as [files|e|] eqn:Hglob; [|done..].
  destruct (appendRegular files pathList) as [pathList'|e|] eqn:Hfiles; [|done..].
  constructor; [|by eapply IH].
  exists files. split; [done|]. by eapply appendRegular_returns.
Qed.

End patternsToPaths_facts.

(** [patternsToPaths] returns a list exactly when [Glob] returns for every
    pattern and [os.Stat] for every file matched.  The list is then in the
    order of Go on strings, and it holds the regular files the patterns
    match, each as often as it is matched: a file that two patterns match
    is listed twice. *)
Theorem patternsToPaths_spec (homeDir : gostring) (Glob : gostring → result (list gostring))
    (FileInfo : Type) (Stat : gostring → result FileInfo) (IsRegular : FileInfo → bool)
    (patternList : list gostring) :
  ((∃ paths, patternsToPaths homeDir Glob FileInfo Stat IsRegular patternList = Ok paths)
   ↔ Forall (readable homeDir Glob FileInfo Stat) patternList)
  ∧ (∀ paths,
       patternsToPaths homeDir Glob FileInfo Stat IsRegular patternList = Ok paths →
       StronglySorted strLe paths
       ∧ paths ≡ₚ patternList ≫= regularFiles homeDir Glob FileInfo Stat IsRegular).
Proof.
  assert (∀ paths,
            patternsToPaths homeDir Glob FileInfo Stat IsRegular patternList = Ok paths →
            Forall (readable homeDir Glob FileInfo Stat) patternList) as Hreadable.
  { unfold patternsToPaths, mbind, result_bind. intros paths Hpaths.
    destruct (appendMatches _ _ _ _ _ patternList []) as [pathList|e|] eqn:Hm; [|done..].
    by eapply appendMatches_returns. }
  assert (Forall (readable homeDir Glob FileInfo Stat) patternList →
          patternsToPaths homeDir Glob FileInfo Stat IsRegular patternList
          = Ok (Strings (patternList ≫= regularFiles homeDir Glob FileInfo Stat IsRegular)))
    as Hpaths.
  { intros Hall. unfold patternsToPaths.
    by rewrite (appendMatches_Ok _ _ _ _ _ _ _ Hall). }
  split.
  - split; [intros [paths Hp]; by eapply Hreadable|].
    intros Hall. eexists. by apply Hpaths.
  - intros paths Hp. rewrite (Hpaths (Hreadable _ Hp)) in Hp. injection Hp as <-.
    unfold Strings. split.
    + apply StronglySorted_merge_sort; apply _.
    + apply merge_sort_Permutation.
Qed.
